(** * Heft subprocess runner: a shallow embedding of
      [SubprocessRunnerBase.ts] and [StringBufferTerminalProvider.ts]

    The development follows the source file by file.  JavaScript values,
    exceptions and template-literal string conversion live in [Js]; the
    argument codec ([serializeArg], [deserializeArg]) in [Codec]; the two
    routers in [Router]; the parent-side handlers installed by
    [invokeAsSubprocessAsync] in [Parent]; the worker bootstrap in
    [Bootstrap]; the node-argument rewriting in [NodeArgs]; the string
    buffer terminal provider in [TerminalProvider]. *)

From Stdlib Require Import ZArith Ascii DecimalString.
From stdpp Require Import gmap strings list.

(** ** JavaScript values

    Strings are sequences of characters compared character by character;
    the program looks at no character but '=', escape, line feed and
    carriage return. *)

Module Js.

(** A Number value.  A finite non-zero double is named by the shortest
    decimal digits [digits] and the position [point] of the decimal point
    that Number::toString (ECMA-262, 6.1.6.1.20) assigns to it: the value
    is [digits * 10 ^ (point - k)], [k] the number of digits. *)
Inductive Number :=
| NaN
| Zero (negative : bool)
| Infinity (negative : bool)
| Finite (negative : bool) (digits : positive) (point : Z).

(** What an [Error] instance shows to its readers: the [name] its
    prototype gives it, its [message] and its [stack]. *)
Record ErrorObject := {
  name : string;
  message : string;
  stack : option string
}.

(** The result of converting a value to a string, as a template literal
    does: a string, or a TypeError raised by the engine. *)
Inductive TypeErrorReason :=
| CannotConvertSymbolToString
| CannotConvertObjectToPrimitive
| CannotReadPropertyOfUndefined (property : string).

Inductive Conversion :=
| Converts (s : string)
| Fails (reason : TypeErrorReason).

(** Values.  An object that is not an [Error] (plain object, array, boxed
    primitive, ...) is known to this program only through [typeof],
    [instanceof Error] and its string conversion, which the object itself
    defines ("[object Object]" for a plain object, the joined elements for
    an array, a TypeError for an object without prototype).  An object
    whose conversion runs code of its own that throws some other value is
    not among the values modelled. *)
Inductive Value :=
| undefined
| null
| Str (s : string)
| Num (n : Number)
| Bool (b : bool)
| ErrorInstance (e : ErrorObject)
| Object (toString : Conversion)
| Function (source : string)
| Symbol (description : option string)
| BigInt (z : Z).

Inductive Typeof :=
| typeof_undefined | typeof_object | typeof_string | typeof_number
| typeof_boolean | typeof_function | typeof_symbol | typeof_bigint.

Definition typeof (v : Value) : Typeof :=
  match v with
  | undefined => typeof_undefined
  | null => typeof_object
  | Str _ => typeof_string
  | Num _ => typeof_number
  | Bool _ => typeof_boolean
  | ErrorInstance _ => typeof_object
  | Object _ => typeof_object
  | Function _ => typeof_function
  | Symbol _ => typeof_symbol
  | BigInt _ => typeof_bigint
  end.

(** [v instanceof Error], with the instance when it is one. *)
Definition instanceofError (v : Value) : option ErrorObject :=
  match v with
  | ErrorInstance e => Some e
  | _ => None
  end.

(** ToBoolean: the falsy values are undefined, null, false, the empty
    string, the zeros, NaN and 0n. *)
Definition ToBoolean (v : Value) : bool :=
  match v with
  | undefined | null => false
  | Str s => negb (String.eqb s "")
  | Num NaN | Num (Zero _) => false
  | Num _ => true
  | Bool b => b
  | BigInt z => negb (z =? 0)%Z
  | ErrorInstance _ | Object _ | Function _ | Symbol _ => true
  end.

Definition decimal (z : Z) : string :=
  NilZero.string_of_int (Z.to_int z).

Fixpoint zeros (n : nat) : string :=
  match n with
  | O => ""
  | S n => "0" +:+ zeros n
  end.

Definition leading (n : nat) (s : string) : string := String.substring 0 n s.
Definition trailing (n : nat) (s : string) : string :=
  String.substring n (String.length s - n) s.

(** Number::toString in radix 10. *)
Definition NumberToString (x : Number) : string :=
  match x with
  | NaN => "NaN"
  | Zero _ => "0"
  | Infinity false => "Infinity"
  | Infinity true => "-Infinity"
  | Finite negative digits point =>
      let s := decimal (Z.pos digits) in
      let k := Z.of_nat (String.length s) in
      let n := point in
      (if negative then "-" else "") +:+
      (if (k <=? n)%Z && (n <=? 21)%Z then
         s +:+ zeros (Z.to_nat (n - k))
       else if (0 <? n)%Z && (n <=? 21)%Z then
         leading (Z.to_nat n) s +:+ "." +:+ trailing (Z.to_nat n) s
       else if (-6 <? n)%Z && (n <=? 0)%Z then
         "0." +:+ zeros (Z.to_nat (- n)) +:+ s
       else
         let e := (n - 1)%Z in
         let exponent :=
           (if (e <? 0)%Z then "-" else "+") +:+ decimal (Z.abs e) in
         if (k =? 1)%Z then s +:+ "e" +:+ exponent
         else leading 1 s +:+ "." +:+ trailing 1 s +:+ "e" +:+ exponent)
  end.

(** Error.prototype.toString. *)
Definition ErrorToString (e : ErrorObject) : string :=
  if String.eqb (name e) "" then message e
  else if String.eqb (message e) "" then name e
  else name e +:+ ": " +:+ message e.

(** ToString, the conversion a template literal applies to [${v}]. *)
Definition ToString (v : Value) : Conversion :=
  match v with
  | undefined => Converts "undefined"
  | null => Converts "null"
  | Str s => Converts s
  | Num n => Converts (NumberToString n)
  | Bool true => Converts "true"
  | Bool false => Converts "false"
  | ErrorInstance e => Converts (ErrorToString e)
  | Object c => c
  | Function source => Converts source
  | Symbol _ => Fails CannotConvertSymbolToString
  | BigInt z => Converts (decimal z)
  end.

(** What a [throw] raises: an [Error] built on the spot by the source
    ([throw new Error(message)]; the engine adds a stack the program never
    reads), a TypeError of the engine, or a value raised by the code the
    runner calls. *)
Inductive Exception :=
| NewError (message : string)
| TypeError (reason : TypeErrorReason)
| Raised (v : Value).

Inductive Result (A : Type) :=
| Return (a : A)
| Throw (e : Exception).
Arguments Return {A} a.
Arguments Throw {A} e.

Definition andThen {A B : Type} (r : Result A) (k : A -> Result B) : Result B :=
  match r with
  | Return a => k a
  | Throw e => Throw e
  end.

End Js.

(** ** The argument codec: [serializeArg] and [deserializeArg] *)

Module Codec.
Import Js.

(** The declarations of [SubprocessCommunication.ts] the codec uses: the
    tags of [SupportedSerializableArgType], the serialized error value and
    the tagged argument.  On the wire the [type] field of an argument is
    whatever the sender put there, so next to the four tags it can be a
    value no tag equals; [shown] is the text a template literal prints
    for it. *)
Inductive SupportedSerializableArgType :=
| Undefined
| Null
| Primitive
| Error.

Inductive ArgType :=
| Tag (t : SupportedSerializableArgType)
| UnknownTag (shown : string).

Record ISerializedErrorValue := {
  errorMessage : string;
  errorStack : option string
}.

(** The [value] field: a value stored as it is, or the object that carries
    a serialized error. *)
Inductive ArgValue :=
| Plain (v : Value)
| SerializedError (e : ISerializedErrorValue).

Record ISubprocessApiCallArg := {
  type : ArgType;
  value : option ArgValue
}.

Definition dquote : string := String "034"%char "".

(** [throw new Error(`Argument (${arg}) is not supported in subprocess
    communication.`)]: the template literal converts [arg] to a string
    first, and that conversion can itself throw. *)
Definition throwNotSupported (arg : Value) : Result ISubprocessApiCallArg :=
  match ToString arg with
  | Converts s =>
      Throw (NewError
        ("Argument (" +:+ s +:+ ") is not supported in subprocess communication."))
  | Fails reason => Throw (TypeError reason)
  end.

Definition serializeArg (arg : Value) : Result ISubprocessApiCallArg :=
  match arg with
  | undefined => Return {| type := Tag Undefined; value := None |}
  | null => Return {| type := Tag Null; value := None |}
  | _ =>
      match typeof arg with
      | typeof_object =>
          match instanceofError arg with
          | Some e =>
              Return {| type := Tag Error;
                        value := Some (SerializedError
                                   {| errorMessage := message e;
                                      errorStack := stack e |}) |}
          | None => throwNotSupported arg
          end
      | typeof_string | typeof_number | typeof_boolean =>
          Return {| type := Tag Primitive; value := Some (Plain arg) |}
      | _ => throwNotSupported arg
      end
  end.

(** [new Error(message)] followed by [result.stack = stack]. *)
Definition newErrorWithStack (message : option string) (stack : option string)
  : Value :=
  ErrorInstance {| name := "Error";
                   message := default "" message;
                   stack := stack |}.

Definition deserializeArg (arg : ISubprocessApiCallArg) : Result Value :=
  match type arg with
  | Tag Undefined => Return undefined
  | Tag Null => Return null
  | Tag Error =>
      match value arg with
      | Some (SerializedError v) =>
          Return (newErrorWithStack (Some (errorMessage v)) (errorStack v))
      | Some (Plain undefined) | Some (Plain null) | None =>
          Throw (TypeError (CannotReadPropertyOfUndefined "errorMessage"))
      | Some (Plain _) =>
          (* neither property exists on the value: both read undefined *)
          Return (newErrorWithStack None None)
      end
  | Tag Primitive =>
      match value arg with
      | Some (Plain v) => Return v
      | Some (SerializedError _) => Return (Object (Converts "[object Object]"))
      | None => Return undefined
      end
  | UnknownTag shown =>
      Throw (NewError ("Unexpected arg type " +:+ dquote +:+ shown +:+ dquote +:+ "."))
  end.

(** The shapes the codec supports. *)
Definition isSupported (v : Value) : bool :=
  match v with
  | undefined | null | Str _ | Num _ | Bool _ | ErrorInstance _ => true
  | Object _ | Function _ | Symbol _ | BigInt _ => false
  end.

(** What a reader of the deserialized value can tell apart: everything for
    undefined, null and the primitives; message and stack for an Error. *)
Definition observationallyEqual (x y : Value) : Prop :=
  match x with
  | ErrorInstance e =>
      exists e', y = ErrorInstance e' /\
                 message e' = message e /\ stack e' = stack e
  | _ => y = x
  end.

(** An argument as the interfaces type it: a value under [Primitive], a
    serialized error under [Error]. *)
Definition wellTyped (arg : ISubprocessApiCallArg) : bool :=
  match type arg, value arg with
  | Tag Undefined, _ | Tag Null, _ => true
  | Tag Primitive, Some (Plain v) =>
      match typeof v with
      | typeof_string | typeof_number | typeof_boolean => true
      | _ => false
      end
  | Tag Error, Some (SerializedError _) => true
  | _, _ => false
  end.

(** The arguments [serializeArg] builds: no [value] next to [Undefined]
    and [Null], a string, number or boolean under [Primitive], a
    serialized error under [Error]. *)
Definition canonical (arg : ISubprocessApiCallArg) : bool :=
  match type arg, value arg with
  | Tag Undefined, None | Tag Null, None => true
  | Tag Primitive, Some (Plain v) =>
      match typeof v with
      | typeof_string | typeof_number | typeof_boolean => true
      | _ => false
      end
  | Tag Error, Some (SerializedError _) => true
  | _, _ => false
  end.

End Codec.

(** ** Handlers: state passing with exceptions

    A handler of the runner reads and assigns variables it shares with the
    other handlers and may throw.  [Eff S A] is such a computation over the
    shared state [S]: the state assigned before a [throw] stays assigned. *)

Module Eff.
Import Js.

Definition Eff (S A : Type) : Type := S -> Result A * S.

Definition ret {S A : Type} (a : A) : Eff S A := fun s => (Return a, s).

Definition raise {S A : Type} (e : Exception) : Eff S A :=
  fun s => (Throw e, s).

Definition bind {S A B : Type} (c : Eff S A) (k : A -> Eff S B) : Eff S B :=
  fun s =>
    match c s with
    | (Return a, s') => k a s'
    | (Throw e, s') => (Throw e, s')
    end.

Definition get {S : Type} : Eff S S := fun s => (Return s, s).

Definition modify {S : Type} (f : S -> S) : Eff S unit :=
  fun s => (Return tt, f s).

(** A value or exception computed without the state. *)
Definition lift {S A : Type} (r : Result A) : Eff S A := fun s => (r, s).

(** A computation over a part [T] of the state [S]. *)
Definition zoom {S T A : Type} (view : S -> T) (update : T -> S -> S)
    (c : Eff T A) : Eff S A :=
  fun s => let (r, t) := c (view s) in (r, update t s).

Module Notations.
Notation "'let*' x := c 'in' k" := (bind c (fun x => k))
  (at level 10, x name, c at level 100, k at level 200).
Notation "c ;; k" := (bind c (fun _ : unit => k))
  (at level 100, right associativity).
End Notations.

End Eff.

(** ** The message routers *)

Module Router.
Import Js Eff Eff.Notations.

(** A message: its [type], the [error] argument an exit message carries,
    and the rest of its owner-defined content. *)
Record ISubprocessMessageBase := {
  type : string;
  error : option Codec.ISubprocessApiCallArg;
  payload : string
}.

(** [ISubprocessExitMessage]: a message of type 'exit' that carries the
    serialized completion error. *)
Definition ISubprocessExitMessage (error : Codec.ISubprocessApiCallArg)
  : ISubprocessMessageBase :=
  {| type := "exit"; error := Some error; payload := "" |}.

(** The interface of [SubprocessCommunicationManagerBase] the runner
    calls.  The predicates are pure.  What a handler does with a message
    belongs to the manager; the runner sees the call and what it throws. *)
Record SubprocessCommunicationManagerBase := {
  canHandleMessageFromSubprocess : ISubprocessMessageBase -> bool;
  canHandleMessageFromParentProcess : ISubprocessMessageBase -> bool;
  receiveMessageFromSubprocess : ISubprocessMessageBase -> option Exception;
  receiveMessageFromParentProcess : ISubprocessMessageBase -> option Exception
}.

Inductive Direction := FromParentProcess | FromSubprocess.

(** The calls the router makes on the managers, each manager named by its
    position in [_subprocessCommunicationManagers]. *)
Inductive Call :=
| CanHandle (d : Direction) (manager : nat) (message : ISubprocessMessageBase)
| Receive (d : Direction) (manager : nat) (message : ISubprocessMessageBase).

Definition Calls := list Call.

Definition call (c : Call) : Eff Calls unit := modify (fun log => log ++ [c]).

Definition returnOrThrow (thrown : option Exception) : Eff Calls unit :=
  match thrown with
  | None => ret tt
  | Some e => raise e
  end.

(** [_subprocessCommunicationManagers.push(...)]: registration appends. *)
Definition push (managers registered : list SubprocessCommunicationManagerBase)
  : list SubprocessCommunicationManagerBase :=
  managers ++ registered.

(** The [for ... of] loop of [_receiveMessageFromParentProcess], from the
    manager at position [index] on, and the [throw] after it. *)
Fixpoint receiveFromParentProcessLoop (index : nat)
    (managers : list SubprocessCommunicationManagerBase)
    (message : ISubprocessMessageBase) : Eff Calls unit :=
  match managers with
  | [] =>
      raise (NewError
        ("Subprocess communication manager. No communication manager can handle message type "
         +:+ Codec.dquote +:+ type message +:+ Codec.dquote
         +:+ " from parent process."))
  | subprocessCommunicationManager :: rest =>
      call (CanHandle FromParentProcess index message) ;;
      if canHandleMessageFromParentProcess subprocessCommunicationManager message
      then
        call (Receive FromParentProcess index message) ;;
        returnOrThrow
          (receiveMessageFromParentProcess subprocessCommunicationManager message)
      else receiveFromParentProcessLoop (S index) rest message
  end.

Definition _receiveMessageFromParentProcess
    (managers : list SubprocessCommunicationManagerBase)
    (message : ISubprocessMessageBase) : Eff Calls unit :=
  receiveFromParentProcessLoop 0 managers message.

(** The same for [_receiveMessageFromSubprocess]. *)
Fixpoint receiveFromSubprocessLoop (index : nat)
    (managers : list SubprocessCommunicationManagerBase)
    (message : ISubprocessMessageBase) : Eff Calls unit :=
  match managers with
  | [] =>
      raise (NewError
        ("Subprocess communication manager. No communication manager can handle message type "
         +:+ Codec.dquote +:+ type message +:+ Codec.dquote
         +:+ " from subprocess."))
  | subprocessCommunicationManager :: rest =>
      call (CanHandle FromSubprocess index message) ;;
      if canHandleMessageFromSubprocess subprocessCommunicationManager message
      then
        call (Receive FromSubprocess index message) ;;
        returnOrThrow
          (receiveMessageFromSubprocess subprocessCommunicationManager message)
      else receiveFromSubprocessLoop (S index) rest message
  end.

Definition _receiveMessageFromSubprocess
    (managers : list SubprocessCommunicationManagerBase)
    (message : ISubprocessMessageBase) : Eff Calls unit :=
  receiveFromSubprocessLoop 0 managers message.

(** The two routers differ by the direction only. *)
Definition canHandle (d : Direction) (m : SubprocessCommunicationManagerBase)
  : ISubprocessMessageBase -> bool :=
  match d with
  | FromParentProcess => canHandleMessageFromParentProcess m
  | FromSubprocess => canHandleMessageFromSubprocess m
  end.

Definition receive (d : Direction) (m : SubprocessCommunicationManagerBase)
  : ISubprocessMessageBase -> option Exception :=
  match d with
  | FromParentProcess => receiveMessageFromParentProcess m
  | FromSubprocess => receiveMessageFromSubprocess m
  end.

Definition dispatch (d : Direction)
  : list SubprocessCommunicationManagerBase -> ISubprocessMessageBase ->
    Eff Calls unit :=
  match d with
  | FromParentProcess => _receiveMessageFromParentProcess
  | FromSubprocess => _receiveMessageFromSubprocess
  end.

Definition origin (d : Direction) : string :=
  match d with
  | FromParentProcess => "parent process"
  | FromSubprocess => "subprocess"
  end.

Definition noManagerError (d : Direction) (message : ISubprocessMessageBase)
  : Exception :=
  NewError
    ("Subprocess communication manager. No communication manager can handle message type "
     +:+ Codec.dquote +:+ type message +:+ Codec.dquote
     +:+ " from " +:+ origin d +:+ ".").

(** *** Vocabulary of the statements about [Router] *)

(** The [canHandle] questions put to the managers at positions
    [first, first + 1, ..., first + count - 1], in that order. *)
Definition asked (d : Direction) (message : ISubprocessMessageBase)
    (first count : nat) : Calls :=
  (fun index => CanHandle d index message) <$> seq first count.

Definition outcome (thrown : option Exception) : Result unit :=
  match thrown with
  | None => Return tt
  | Some e => Throw e
  end.

(** The manager at position [k] is the first that claims the message. *)
Definition firstClaimant (d : Direction)
    (managers : list SubprocessCommunicationManagerBase)
    (message : ISubprocessMessageBase)
    (k : nat) (manager : SubprocessCommunicationManagerBase) : Prop :=
  managers !! k = Some manager /\
  canHandle d manager message = true /\
  forall j other, j < k -> managers !! j = Some other ->
                  canHandle d other message = false.

Definition unclaimed (d : Direction)
    (managers : list SubprocessCommunicationManagerBase)
    (message : ISubprocessMessageBase) : Prop :=
  forall manager, manager ∈ managers -> canHandle d manager message = false.

(** Both loops as one, by direction. *)
Definition loop (d : Direction)
  : nat -> list SubprocessCommunicationManagerBase ->
    ISubprocessMessageBase -> Eff Calls unit :=
  match d with
  | FromParentProcess => receiveFromParentProcessLoop
  | FromSubprocess => receiveFromSubprocessLoop
  end.

(** Two managers that own disjoint message types and whose handlers
    return. *)
Definition managerOwning (types : list string) : SubprocessCommunicationManagerBase :=
  {| canHandleMessageFromSubprocess :=
       fun message => existsb (String.eqb (type message)) types;
     canHandleMessageFromParentProcess :=
       fun message => existsb (String.eqb (type message)) types;
     receiveMessageFromSubprocess := fun _ => None;
     receiveMessageFromParentProcess := fun _ => None |}.

Definition terminalProviderManager : SubprocessCommunicationManagerBase :=
  managerOwning ["terminalProviderWrite"]%string.

Definition scopedLoggerManager : SubprocessCommunicationManagerBase :=
  managerOwning ["requestScopedLogger"; "scopedLoggerReady"]%string.

Definition loggerRequest : ISubprocessMessageBase :=
  {| type := "requestScopedLogger"; error := None; payload := "typescript" |}.

Definition strayMessage : ISubprocessMessageBase :=
  {| type := "heartbeat"; error := None; payload := "" |}.

End Router.

(** ** The parent side: the handlers [invokeAsSubprocessAsync] installs *)

Module Parent.
Import Js Eff Eff.Notations Router.

(** The promise [invokeAsSubprocessAsync] returns.  [reject(exitError)]
    rejects with the recorded value, [reject(new Error(...))] with an
    error built on the spot. *)
Inductive PromiseState :=
| Pending
| Resolved
| Rejected (reason : Exception).

(** The variables the two handlers close over, the promise they settle
    and the calls made on the communication managers. *)
Record State := {
  hasExited : bool;
  exitError : Value;
  promise : PromiseState;
  calls : Calls
}.

(** [let hasExited = false; let exitError;] inside a new promise. *)
Definition invokeAsSubprocessAsync : State :=
  {| hasExited := false; exitError := undefined;
     promise := Pending; calls := [] |}.

Definition set_hasExited (b : bool) (st : State) : State :=
  {| hasExited := b; exitError := exitError st;
     promise := promise st; calls := calls st |}.

Definition set_exitError (v : Value) (st : State) : State :=
  {| hasExited := hasExited st; exitError := v;
     promise := promise st; calls := calls st |}.

Definition set_calls (log : Calls) (st : State) : State :=
  {| hasExited := hasExited st; exitError := exitError st;
     promise := promise st; calls := log |}.

(** Settling a promise that is already settled does nothing. *)
Definition settle (outcome : PromiseState) (st : State) : State :=
  match promise st with
  | Pending =>
      {| hasExited := hasExited st; exitError := exitError st;
         promise := outcome; calls := calls st |}
  | _ => st
  end.

Definition resolve : Eff State unit := modify (settle Resolved).
Definition reject (reason : Exception) : Eff State unit :=
  modify (settle (Rejected reason)).

(** [SubprocessRunnerBase.deserializeArg(exitMessage.error)]: a message
    without an [error] property hands [undefined] to [deserializeArg],
    whose read of [arg.type] then throws. *)
Definition deserializeExitError (error : option Codec.ISubprocessApiCallArg)
  : Result Value :=
  match error with
  | Some arg => Codec.deserializeArg arg
  | None => Throw (TypeError (CannotReadPropertyOfUndefined "type"))
  end.

Definition duplicateExitMessage (message : ISubprocessMessageBase) : Exception :=
  NewError
    ("Subprocess communication error. Received a duplicate "
     +:+ Codec.dquote +:+ type message +:+ Codec.dquote +:+ " message.").

Definition messageAfterExit : Exception :=
  NewError
    ("Subprocess communication error. Received a message after the subprocess "
     +:+ "has indicated that it has exited").

Definition exitedBeforeExitMessage : Exception :=
  NewError
    ("Subprocess exited before sending "
     +:+ Codec.dquote +:+ "exit" +:+ Codec.dquote +:+ " message.").

(** [subprocess.on('message', ...)]. *)
Definition onMessage (managers : list SubprocessCommunicationManagerBase)
    (message : ISubprocessMessageBase) : Eff State unit :=
  if String.eqb (type message) "exit" then
    let* st := get in
    if hasExited st then raise (duplicateExitMessage message)
    else
      modify (set_hasExited true) ;;
      let* error := lift (deserializeExitError (error message)) in
      modify (set_exitError error)
  else
    let* st := get in
    if hasExited st then raise messageAfterExit
    else zoom calls set_calls (_receiveMessageFromSubprocess managers message).

(** [subprocess.on('close', ...)]. *)
Definition onClose : Eff State unit :=
  let* st := get in
  if ToBoolean (exitError st) then reject (Raised (exitError st))
  else if negb (hasExited st) then reject exitedBeforeExitMessage
  else resolve.

(** The events of the child process the runner listens to.  Each is
    handled in a turn of its own: what a handler throws leaves that turn,
    and the variables keep what was assigned before the throw. *)
Inductive ChildProcessEvent :=
| message_event (message : ISubprocessMessageBase)
| close_event.

Definition emit (managers : list SubprocessCommunicationManagerBase)
    (event : ChildProcessEvent) : Eff State unit :=
  match event with
  | message_event message => onMessage managers message
  | close_event => onClose
  end.

(** The events in order, with what each handler returned or threw. *)
Fixpoint run (managers : list SubprocessCommunicationManagerBase)
    (events : list ChildProcessEvent) (st : State)
  : list (Result unit) * State :=
  match events with
  | [] => ([], st)
  | event :: rest =>
      let (r, st') := emit managers event st in
      let (rs, st'') := run managers rest st' in
      (r :: rs, st'')
  end.

Definition isExit (message : ISubprocessMessageBase) : bool :=
  String.eqb (type message) "exit".

(** *** Vocabulary of the statements about [Parent] *)

Definition isExitEvent (event : ChildProcessEvent) : bool :=
  match event with
  | message_event message => isExit message
  | close_event => false
  end.

Definition closeOutcome (st : State) : PromiseState :=
  if ToBoolean (exitError st) then Rejected (Raised (exitError st))
  else if negb (hasExited st) then Rejected exitedBeforeExitMessage
  else Resolved.

(** The claim C2 as the spec words it: a completion error is recorded
    when the exit message carried anything but [Undefined]. *)
Definition closeOutcomeAsStated (st : State) : PromiseState :=
  match exitError st with
  | undefined =>
      if negb (hasExited st) then Rejected exitedBeforeExitMessage
      else Resolved
  | completionError => Rejected (Raised completionError)
  end.

(** The runner after the child process has emitted [events]. *)
Definition after (managers : list SubprocessCommunicationManagerBase)
    (events : list ChildProcessEvent) : State :=
  (run managers events invokeAsSubprocessAsync).2.

(** An exit message that carries the primitive [false], as the bootstrap
    sends it when [invokeAsync] throws [false]. *)
Definition exitMessageFalse : ISubprocessMessageBase :=
  ISubprocessExitMessage {| Codec.type := Codec.Tag Codec.Primitive;
                 Codec.value := Some (Codec.Plain (Bool false)) |}.

(** A worker that reports success and then speaks again. *)
Definition exitMessageSuccess : ISubprocessMessageBase :=
  ISubprocessExitMessage {| Codec.type := Codec.Tag Codec.Undefined; Codec.value := None |}.

Definition serializedFailure : Codec.ISubprocessApiCallArg :=
  {| Codec.type := Codec.Tag Codec.Error;
     Codec.value := Some (Codec.SerializedError
       {| Codec.errorMessage := "compile failed"; Codec.errorStack := None |}) |}.

Definition terminalMessage : ISubprocessMessageBase :=
  {| type := "terminalProviderWrite"; error := None; payload := "done" |}.

(** An exit message whose argument carries a tag the codec does not
    know. *)
Definition unknownTagExitMessage : ISubprocessMessageBase :=
  ISubprocessExitMessage {| Codec.type := Codec.UnknownTag "9";
                            Codec.value := None |}.

(** The handler returns with [hasExited] set and [completionError]
    stored in [exitError]; the promise and the calls on the managers are
    those of [st]. *)
Definition recorded (completionError : Value) (st : State) : Result unit * State :=
  (Return tt,
   {| hasExited := true; exitError := completionError;
      promise := promise st; calls := calls st |}).

(** The handler throws [e] with [hasExited] set and [exitError] left as
    it is in [st]. *)
Definition thrownWhileRecording (e : Exception) (st : State)
  : Result unit * State :=
  (Throw e,
   {| hasExited := true; exitError := exitError st;
      promise := promise st; calls := calls st |}).

End Parent.

(** ** The worker side: [SUBPROCESS_RUNNER_INNER_INVOKE] *)

Module Bootstrap.
Import Js Eff Eff.Notations Router.

(** The listeners of [process]: the arrow function the bootstrap installs,
    which hands each message to [_receiveMessageFromParentProcess], or a
    listener somebody else installed. *)
Inductive Listener :=
| forwardToRouter
| installedElsewhere (id : nat).

(** The calls the bootstrap makes on [process], in order. *)
Inductive ProcessCall :=
| on (event : string) (listener : Listener)
| removeAllListeners
| send (message : ISubprocessMessageBase).

Record Process := {
  listeners : list (string * Listener);
  calls : list ProcessCall
}.

Definition process_on (event : string) (listener : Listener) : Eff Process unit :=
  modify (fun p => {| listeners := listeners p ++ [(event, listener)];
                      calls := calls p ++ [on event listener] |}).

Definition process_removeAllListeners : Eff Process unit :=
  modify (fun p => {| listeners := [];
                      calls := calls p ++ [removeAllListeners] |}).

Definition process_send (message : ISubprocessMessageBase) : Eff Process unit :=
  modify (fun p => {| listeners := listeners p;
                      calls := calls p ++ [send message] |}).

(** How [this.invokeAsync()] ends, as the [await] sees it: the promise is
    fulfilled, the call throws before it returns a promise, the promise is
    rejected, or the promise never settles. *)
Inductive Completion :=
| fulfilled
| throws (e : Value)
| rejected (e : Value)
| never_settles.

(** [let error = undefined; try { await this.invokeAsync(); } catch (e)
    { error = e; }]: the value of [error] on entry to the [finally]
    block, if the [await] ever resumes. *)
Definition tryAwait (invokeAsync : Completion) : option Value :=
  match invokeAsync with
  | fulfilled => Some undefined
  | throws e => Some e
  | rejected e => Some e
  | never_settles => None
  end.

(** The [finally] block. *)
Definition finally (error : Value) : Eff Process unit :=
  process_removeAllListeners ;;
  let* serialized := lift (Codec.serializeArg error) in
  let exitMessage := ISubprocessExitMessage serialized in
  process_send exitMessage.

(** How the promise of the bootstrap ends. *)
Inductive Outcome :=
| Fulfilled
| Rejected (reason : Exception)
| NeverSettles.

Definition SUBPROCESS_RUNNER_INNER_INVOKE (invokeAsync : Completion)
    (p : Process) : Outcome * Process :=
  let (_, p) := process_on "message" forwardToRouter p in
  match tryAwait invokeAsync with
  | None => (NeverSettles, p)
  | Some error =>
      match finally error p with
      | (Return _, p) => (Fulfilled, p)
      | (Throw e, p) => (Rejected e, p)
      end
  end.

(** The exit messages among the calls. *)
Definition exitMessagesSent (log : list ProcessCall)
  : list ISubprocessMessageBase :=
  omap (fun c => match c with
                 | send message =>
                     if String.eqb (type message) "exit" then Some message
                     else None
                 | _ => None
                 end) log.

(** *** Vocabulary of the statements about [Bootstrap] *)

Definition freshProcess : Process := {| listeners := []; calls := [] |}.

Definition failure : Value :=
  ErrorInstance {| name := "Error"; message := "compile failed";
                   stack := Some "Error: compile failed at invokeAsync" |}.

(** [process.emit('message', message)]: the listeners registered for
    'message' run in the order they were added, and what one throws ends
    the emit.  The listener of the bootstrap hands the message to
    [_receiveMessageFromParentProcess]; a listener installed elsewhere is
    not the runner's and makes no call on its managers. *)
Fixpoint emitMessage (managers : list SubprocessCommunicationManagerBase)
    (registered : list (string * Listener))
    (message : ISubprocessMessageBase) : Eff Calls unit :=
  match registered with
  | [] => ret tt
  | (event, listener) :: rest =>
      if String.eqb event "message" then
        match listener with
        | forwardToRouter =>
            _receiveMessageFromParentProcess managers message ;;
            emitMessage managers rest message
        | installedElsewhere _ => emitMessage managers rest message
        end
      else emitMessage managers rest message
  end.

End Bootstrap.

(** ** Worker and parent together *)

Module Protocol.
Import Js Router.

(** The messages the worker handed to [process.send], in the order sent. *)
Definition messagesSent (log : list Bootstrap.ProcessCall)
  : list ISubprocessMessageBase :=
  omap (fun c => match c with
                 | Bootstrap.send message => Some message
                 | _ => None
                 end) log.

(** The channel that [fork] opens carries every message as JSON text.
    Under [value], a string, a boolean and a finite number are read back
    as they were written; NaN and the infinities are written as [null];
    a negative zero is read back as zero; [null] stays [null]; a property
    that holds undefined is left out.  A serialized error holds strings
    and is read back as written.  Values of other shapes, which
    [serializeArg] never puts under [value], and unknown tags are not
    modelled: for them the result is [None]. *)
Definition jsonValue (v : Codec.ArgValue) : option (option Codec.ArgValue) :=
  match v with
  | Codec.SerializedError e => Some (Some (Codec.SerializedError e))
  | Codec.Plain undefined => Some None
  | Codec.Plain null => Some (Some (Codec.Plain null))
  | Codec.Plain (Str s) => Some (Some (Codec.Plain (Str s)))
  | Codec.Plain (Bool b) => Some (Some (Codec.Plain (Bool b)))
  | Codec.Plain (Num NaN) | Codec.Plain (Num (Infinity _)) =>
      Some (Some (Codec.Plain null))
  | Codec.Plain (Num (Zero _)) => Some (Some (Codec.Plain (Num (Zero false))))
  | Codec.Plain (Num (Finite negative digits point)) =>
      Some (Some (Codec.Plain (Num (Finite negative digits point))))
  | Codec.Plain _ => None
  end.

Definition jsonArg (arg : Codec.ISubprocessApiCallArg)
  : option Codec.ISubprocessApiCallArg :=
  match Codec.type arg with
  | Codec.Tag t =>
      match Codec.value arg with
      | None => Some {| Codec.type := Codec.Tag t; Codec.value := None |}
      | Some v =>
          match jsonValue v with
          | Some read => Some {| Codec.type := Codec.Tag t; Codec.value := read |}
          | None => None
          end
      end
  | Codec.UnknownTag _ => None
  end.

(** A message as the parent reads it. *)
Definition jsonMessage (message : ISubprocessMessageBase)
  : option ISubprocessMessageBase :=
  match error message with
  | None => Some message
  | Some arg =>
      match jsonArg arg with
      | Some read =>
          Some {| type := type message; error := Some read;
                  payload := payload message |}
      | None => None
      end
  end.

(** What the parent's [subprocess] emits for a worker that made the calls
    [log] on its [process] and then ended: a 'message' event for each
    message sent, in order and as read from the channel, then the 'close'
    event. *)
Definition childProcessEvents (log : list Bootstrap.ProcessCall)
  : option (list Parent.ChildProcessEvent) :=
  match mapM jsonMessage (messagesSent log) with
  | Some messages =>
      Some ((Parent.message_event <$> messages) ++ [Parent.close_event])
  | None => None
  end.

(** How the promise of [invokeAsSubprocessAsync] ends for a worker that
    runs the bootstrap, sends nothing of its own while [invokeAsync]
    runs, and ends. *)
Definition launchOutcome (managers : list SubprocessCommunicationManagerBase)
    (invokeAsync : Bootstrap.Completion) : option Parent.PromiseState :=
  match childProcessEvents
          (Bootstrap.calls
             (Bootstrap.SUBPROCESS_RUNNER_INNER_INVOKE invokeAsync
                Bootstrap.freshProcess).2) with
  | Some events => Some (Parent.promise (Parent.after managers events))
  | None => None
  end.

End Protocol.

(** ** Node arguments for the subprocess: [_processNodeArgsForSubprocess] *)

Module NodeArgs.

(** [s.split(separator)] for a separator of one character. *)
Fixpoint split (separator : ascii) (s : string) : list string :=
  match s with
  | EmptyString => [EmptyString]
  | String c rest =>
      if Ascii.eqb c separator then EmptyString :: split separator rest
      else
        match split separator rest with
        | part :: parts => String c part :: parts
        | [] => [String c EmptyString]
        end
  end.

(** The static [_subprocessInspectorPort] is a Number.  Integers are exact
    up to [2 ^ 53]; there [x + 1] rounds back to [x]. *)
Definition postIncrement (x : Z) : Z :=
  if (x <? 2 ^ 53)%Z then (x + 1)%Z else x.

(** What the function reads and writes outside its locals: the arrays of
    the heap by reference, the static port counter, and the lines written
    to the [terminal] it is given. *)
Record Realm := {
  arrays : gmap nat (list string);
  _subprocessInspectorPort : Z;
  terminal : list string
}.

(** [private static _subprocessInspectorPort: number = 9229 + 1]. *)
Definition initialRealm (heap : gmap nat (list string)) : Realm :=
  {| arrays := heap;
     _subprocessInspectorPort := 9229 + 1;
     terminal := [] |}.

Definition elements (r : Realm) (array : nat) : list string :=
  default [] (arrays r !! array).

Definition set_arrays (heap : gmap nat (list string)) (r : Realm) : Realm :=
  {| arrays := heap;
     _subprocessInspectorPort := _subprocessInspectorPort r;
     terminal := terminal r |}.

(** [[...nodeArgs]]: a new array with the same elements. *)
Definition spread (nodeArgs : nat) (r : Realm) : nat * Realm :=
  let clone := fresh (dom (arrays r)) in
  (clone, set_arrays (<[clone := elements r nodeArgs]> (arrays r)) r).

(** [nodeArgs[i] = text]. *)
Definition assign (nodeArgs i : nat) (text : string) (r : Realm) : Realm :=
  set_arrays (<[nodeArgs := <[i := text]> (elements r nodeArgs)]> (arrays r)) r.

Definition writeLine (line : string) (r : Realm) : Realm :=
  {| arrays := arrays r;
     _subprocessInspectorPort := _subprocessInspectorPort r;
     terminal := terminal r ++ [line] |}.

(** The body of the [for] loop at index [i]; the boolean is
    [willUseInspector]. *)
Definition loopBody (nodeArgs : nat) (inspectPort : Z)
    (state : bool * Realm) (i : nat) : bool * Realm :=
  let (willUseInspector, r) := state in
  match elements r nodeArgs !! i with
  | Some nodeArg =>
      match head (split "=" nodeArg) with
      | Some firstNodeArgPart =>
          if String.eqb firstNodeArgPart "--inspect"
             || String.eqb firstNodeArgPart "--inspect-brk"
          then
            (true,
             assign nodeArgs i
               (firstNodeArgPart +:+ "=" +:+ Js.decimal inspectPort) r)
          else state
      | None => state
      end
  | None => state
  end.

(** The indices the loop visits: the assignments never change the length
    of the array, so they are [0 .. length - 1] of the array on entry. *)
Definition _processNodeArgsForSubprocess (nodeArgs : nat) (r : Realm)
  : nat * Realm :=
  let (nodeArgs, r) := spread nodeArgs r in
  let inspectPort := _subprocessInspectorPort r in
  let r := {| arrays := arrays r;
              _subprocessInspectorPort := postIncrement inspectPort;
              terminal := terminal r |} in
  let (willUseInspector, r) :=
    foldl (loopBody nodeArgs inspectPort) (false, r)
          (seq 0 (length (elements r nodeArgs))) in
  let r :=
    if willUseInspector
    then writeLine ("Subprocess with inspector bound to port "
                    +:+ Js.decimal inspectPort) r
    else r in
  (nodeArgs, r).

(** Successive launches by [invokeAsSubprocessAsync], each of which
    passes [process.execArgv] to [_processNodeArgsForSubprocess]; the
    result is the [execArgv] of each child, in launch order. *)
Fixpoint launches (count : nat) (execArgv : nat) (r : Realm)
  : list nat * Realm :=
  match count with
  | O => ([], r)
  | S count =>
      let (child, r) := _processNodeArgsForSubprocess execArgv r in
      let (children, r) := launches count execArgv r in
      (child :: children, r)
  end.

(** *** Vocabulary of the statements about [NodeArgs] *)

(** [s] up to its first [separator]. *)
Fixpoint before (separator : ascii) (s : string) : string :=
  match s with
  | EmptyString => EmptyString
  | String c rest =>
      if Ascii.eqb c separator then EmptyString
      else String c (before separator rest)
  end.

(** The claim's reading of "a [flag], with or without an explicit
    [=port] suffix". *)
Definition isFlag (flag arg : string) : bool :=
  String.eqb arg flag || String.prefix (flag +:+ "=") arg.

(** What the loop body leaves at the place of [arg]. *)
Definition inspects (arg : string) : bool :=
  match head (split "=" arg) with
  | Some firstNodeArgPart =>
      String.eqb firstNodeArgPart "--inspect"
      || String.eqb firstNodeArgPart "--inspect-brk"
  | None => false
  end.

Definition rewritten (inspectPort : Z) (arg : string) : string :=
  match head (split "=" arg) with
  | Some firstNodeArgPart =>
      if String.eqb firstNodeArgPart "--inspect"
         || String.eqb firstNodeArgPart "--inspect-brk"
      then firstNodeArgPart +:+ "=" +:+ Js.decimal inspectPort
      else arg
  | None => arg
  end.

(** The claim's reading of the rewriting. *)
Definition forwarded (port : Z) (arg : string) : string :=
  if isFlag "--inspect" arg then "--inspect=" +:+ Js.decimal port
  else if isFlag "--inspect-brk" arg then "--inspect-brk=" +:+ Js.decimal port
  else arg.

(** The parent was started with [--inspect-brk=9229]. *)
Definition parentExecArgv : list string :=
  ["--inspect-brk=9229"; "--max-old-space-size=4096"; "--inspect"]%string.

Definition parentRealm : Realm := initialRealm {[ 7 := parentExecArgv ]}.

(** An argument that is an inspector flag, with or without [=...]. *)
Definition isInspectorFlag (arg : string) : bool :=
  isFlag "--inspect" arg || isFlag "--inspect-brk" arg.

End NodeArgs.

(** ** [StringBufferTerminalProvider] *)

Module TerminalProvider.

(** The declarations of [ITerminalProvider.ts] and [StringBuilder.ts] the
    provider uses.  [Severity] names [log], [warn] and [error]; a value of
    the enum that is none of them takes the [default] branch.  A
    [StringBuilder] collects the text appended to it, and [toString]
    gives that text in the order it was appended. *)
Inductive Severity :=
| log
| warn
| error
| otherSeverity (value : nat).

Record StringBuilder := { chunks : list string }.

Definition newStringBuilder : StringBuilder := {| chunks := [] |}.

Definition append (text : string) (builder : StringBuilder) : StringBuilder :=
  {| chunks := chunks builder ++ [text] |}.

Definition toString (builder : StringBuilder) : string :=
  foldr String.append EmptyString (chunks builder).

Record StringBufferTerminalProvider := {
  _standardBuffer : StringBuilder;
  _warningBuffer : StringBuilder;
  _errorBuffer : StringBuilder;
  _supportsColor : bool
}.

Definition constructor (supportsColor : bool) : StringBufferTerminalProvider :=
  {| _standardBuffer := newStringBuilder;
     _warningBuffer := newStringBuilder;
     _errorBuffer := newStringBuilder;
     _supportsColor := supportsColor |}.

Definition write (data : string) (severity : Severity)
    (this : StringBufferTerminalProvider) : StringBufferTerminalProvider :=
  match severity with
  | warn =>
      {| _standardBuffer := _standardBuffer this;
         _warningBuffer := append data (_warningBuffer this);
         _errorBuffer := _errorBuffer this;
         _supportsColor := _supportsColor this |}
  | error =>
      {| _standardBuffer := _standardBuffer this;
         _warningBuffer := _warningBuffer this;
         _errorBuffer := append data (_errorBuffer this);
         _supportsColor := _supportsColor this |}
  | log | otherSeverity _ =>
      {| _standardBuffer := append data (_standardBuffer this);
         _warningBuffer := _warningBuffer this;
         _errorBuffer := _errorBuffer this;
         _supportsColor := _supportsColor this |}
  end.

(** [s.replace(/c/g, replacement)] for a pattern of one character. *)
Fixpoint replace (c : ascii) (replacement : string) (s : string) : string :=
  match s with
  | EmptyString => EmptyString
  | String x rest =>
      if Ascii.eqb x c then replacement +:+ replace c replacement rest
      else String x (replace c replacement rest)
  end.

Definition escape : ascii := "027"%char.
Definition lineFeed : ascii := "010"%char.
Definition carriageReturn : ascii := "013"%char.

Definition _normalizeOutput (s : string) : string :=
  replace carriageReturn "[r]"
    (replace lineFeed "[n]"
      (replace escape "[x]" s)).

Definition getOutput (this : StringBufferTerminalProvider) : string :=
  _normalizeOutput (toString (_standardBuffer this)).

Definition getErrorOutput (this : StringBufferTerminalProvider) : string :=
  _normalizeOutput (toString (_errorBuffer this)).

Definition getWarningOutput (this : StringBufferTerminalProvider) : string :=
  _normalizeOutput (toString (_warningBuffer this)).

Definition supportsColor (this : StringBufferTerminalProvider) : bool :=
  _supportsColor this.

(** *** Vocabulary of the statements about [TerminalProvider] *)

(** The normalization read character by character, as the claim words
    it. *)
Definition normalizedCharacter (c : ascii) : string :=
  if Ascii.eqb c escape then "[x]"
  else if Ascii.eqb c lineFeed then "[n]"
  else if Ascii.eqb c carriageReturn then "[r]"
  else String c "".

Fixpoint eachCharacterNormalized (s : string) : string :=
  match s with
  | EmptyString => EmptyString
  | String c rest => normalizedCharacter c +:+ eachCharacterNormalized rest
  end.

(** Calls to [write], one after the other. *)
Definition writeAll (writes : list (string * Severity))
    (this : StringBufferTerminalProvider) : StringBufferTerminalProvider :=
  foldl (fun provider w => write w.1 w.2 provider) this writes.

(** The text of the writes whose severity [select] picks, in the order
    written. *)
Fixpoint written (select : Severity -> bool)
    (writes : list (string * Severity)) : string :=
  match writes with
  | [] => EmptyString
  | (data, severity) :: rest =>
      if select severity then data +:+ written select rest
      else written select rest
  end.

Definition isWarn (severity : Severity) : bool :=
  match severity with warn => true | _ => false end.

Definition isError (severity : Severity) : bool :=
  match severity with error => true | _ => false end.

Definition isStandard (severity : Severity) : bool :=
  negb (isWarn severity) && negb (isError severity).

(** The character [c] occurs in [s]. *)
Fixpoint occurs (c : ascii) (s : string) : bool :=
  match s with
  | EmptyString => false
  | String x rest => Ascii.eqb x c || occurs c rest
  end.

End TerminalProvider.

(** * Properties *)

(** Running a handler: unfold the operations of [Eff]. *)
Ltac eff :=
  unfold Eff.bind, Eff.ret, Eff.raise, Eff.get, Eff.modify, Eff.lift, Eff.zoom.

(** ** JavaScript values *)

Module JsProperties.
Import Js.

Example NumberToString_9230 :
  NumberToString (Finite false 923 4) = "9230".
Proof. reflexivity. Qed.

Example NumberToString_half :
  NumberToString (Finite false 5 0) = "0.5".
Proof. reflexivity. Qed.

Example NumberToString_12_5 :
  NumberToString (Finite true 125 2) = "-12.5".
Proof. reflexivity. Qed.

Example NumberToString_1e21 :
  NumberToString (Finite false 1 22) = "1e+21".
Proof. reflexivity. Qed.

Example NumberToString_small :
  NumberToString (Finite false 15 (-6)) = "1.5e-7".
Proof. reflexivity. Qed.

(** Every Error object is truthy; the falsy values are these. *)
Lemma ToBoolean_false (v : Value) :
  ToBoolean v = false <->
  v = undefined \/ v = null \/ v = Bool false \/ v = Str "" \/
  v = Num NaN \/ (exists negative, v = Num (Zero negative)) \/ v = BigInt 0.
Proof.
  split.
  - destruct v as [| | s | n | b | e | c | f | d | z]; simpl; intros H;
      try discriminate; eauto 10.
    + destruct s; [eauto 10 | discriminate].
    + destruct n; try discriminate; eauto 10.
    + destruct b; [discriminate | eauto 10].
    + destruct z; try discriminate; eauto 10.
  - intros [-> | [-> | [-> | [-> | [-> | [[negative ->] | ->]]]]]]; reflexivity.
Qed.

End JsProperties.

(** ** The argument codec *)

Module CodecProperties.
Import Js Codec.


Lemma serializeArg_wellTyped (x : Value) (a : ISubprocessApiCallArg) :
  serializeArg x = Return a -> wellTyped a = true.
Proof.
  destruct x as [| | s | n | b | e | c | f | d | z]; simpl; intros H;
    try (injection H as <-; reflexivity).
  - unfold throwNotSupported in H. destruct (ToString (Object c)); discriminate.
  - discriminate.
  - discriminate.
  - discriminate.
Qed.

Lemma deserializeArg_wellTyped (a : ISubprocessApiCallArg) :
  wellTyped a = true -> exists v, deserializeArg a = Return v.
Proof.
  destruct a as [[[] | shown] [[v | e] |]]; unfold wellTyped, deserializeArg;
    simpl; intros H; try discriminate; eauto.
Qed.

Lemma deserializeArg_unknown_tag (shown : string) (v : option ArgValue) :
  deserializeArg {| type := UnknownTag shown; value := v |}
  = Throw (NewError
      ("Unexpected arg type " +:+ dquote +:+ shown +:+ dquote +:+ ".")).
Proof. reflexivity. Qed.


(** An unsupported value whose string conversion succeeds is named in the
    error. *)
Lemma serializeArg_unsupported_named (x : Value) (s : string) :
  isSupported x = false -> ToString x = Converts s ->
  serializeArg x
  = Throw (NewError
      ("Argument (" +:+ s +:+ ") is not supported in subprocess communication.")).
Proof.
  destruct x; simpl; intros H C; try discriminate;
    unfold throwNotSupported; simpl; try rewrite C; try reflexivity;
    injection C as <-; reflexivity.
Qed.

(** C6. For every value [x] of a supported shape (undefined, null, string,
    number, boolean, Error with or without a stack), serializing and then
    deserializing succeeds and gives a value observationally equal to [x]:
    [x] itself when it is undefined, null or a primitive, and an Error with
    the same message and the same stack when [x] is an Error. *)
Theorem deserializeArg_serializeArg (x : Value) :
  isSupported x = true ->
  exists a y,
    serializeArg x = Return a /\
    deserializeArg a = Return y /\
    observationallyEqual x y.
Proof.
  destruct x as [| | s | n | b | e | c | f | d | z]; simpl; intros H;
    try discriminate.
  all: eexists; eexists; split; [reflexivity |]; split; [reflexivity |].
  all: simpl; try reflexivity.
  eexists; split; [reflexivity |]. simpl. split; reflexivity.
Qed.

Lemma deserializeArg_serializeArg_witness :
  exists a y,
    serializeArg
      (ErrorInstance {| name := "RangeError"; message := "out of range";
                        stack := Some "RangeError: out of range at f" |})
    = Return a /\
    deserializeArg a = Return y /\
    observationallyEqual
      (ErrorInstance {| name := "RangeError"; message := "out of range";
                        stack := Some "RangeError: out of range at f" |}) y.
Proof.
  apply (deserializeArg_serializeArg
           (ErrorInstance {| name := "RangeError"; message := "out of range";
                             stack := Some "RangeError: out of range at f" |})).
  reflexivity.
Defined.

(** The prototype is not carried: an instance of a subclass of Error comes
    back as a plain Error. *)
Lemma roundtrip_forgets_name :
  andThen (serializeArg (ErrorInstance {| name := "RangeError";
                                          message := "out of range";
                                          stack := None |})) deserializeArg
  = Return (ErrorInstance {| name := "Error"; message := "out of range";
                             stack := None |}).
Proof. reflexivity. Qed.

(** C7, at a symbol.  The claim has [serializeArg] raise, for every value
    of an unsupported shape, the error that names the value.  For a symbol
    the template literal that builds that message throws first, so what
    [serializeArg] raises is the engine's TypeError and never the
    "is not supported" error. *)
Theorem serializeArg_symbol (description : option string) :
  isSupported (Symbol description) = false /\
  serializeArg (Symbol description)
  = Throw (TypeError CannotConvertSymbolToString) /\
  forall message : string,
    serializeArg (Symbol description) <> Throw (NewError message).
Proof.
  split; [reflexivity |]. split; [reflexivity |].
  intros message H. discriminate H.
Qed.

(** The same holds for an object that has no string conversion. *)
Lemma serializeArg_object_without_conversion (reason : TypeErrorReason) :
  serializeArg (Object (Fails reason)) = Throw (TypeError reason).
Proof. reflexivity. Qed.

Example serializeArg_string :
  serializeArg (Str "done")
  = Return {| type := Tag Primitive;
                 value := Some (Plain (Str "done")) |}.
Proof. reflexivity. Qed.

Example serializeArg_array :
  serializeArg (Object (Converts "1,2"))
  = Throw (NewError
      "Argument (1,2) is not supported in subprocess communication.").
Proof. reflexivity. Qed.

Example deserializeArg_unknown :
  deserializeArg {| type := UnknownTag "7";
                          value := None |}
  = Throw (NewError
      ("Unexpected arg type " +:+ dquote +:+ "7" +:+ dquote +:+ ".")).
Proof. reflexivity. Qed.

(** *** Beyond the claims *)

(** X1. Decoding then encoding: every argument of the form
    [serializeArg] builds is deserialized without error, and serializing
    the value obtained gives the argument back. *)
Theorem serializeArg_deserializeArg (a : ISubprocessApiCallArg) :
  canonical a = true ->
  exists v, deserializeArg a = Return v /\ serializeArg v = Return a.
Proof.
  destruct a as [[[] | shown] [[v | e] |]]; unfold canonical; simpl;
    intros H; try discriminate.
  - by exists undefined.
  - by exists null.
  - exists v. split; [done |]. destruct v; simpl in *; try discriminate; done.
  - destruct e as [m s]. eexists. split; reflexivity.
Qed.

Lemma serializeArg_deserializeArg_witness :
  exists v,
    deserializeArg
      {| type := Tag Error;
         value := Some (SerializedError
                          {| errorMessage := "disk full"; errorStack := None |}) |}
    = Return v /\
    serializeArg v
    = Return {| type := Tag Error;
                value := Some (SerializedError
                                 {| errorMessage := "disk full";
                                    errorStack := None |}) |}.
Proof.
  apply (serializeArg_deserializeArg
           {| type := Tag Error;
              value := Some (SerializedError
                               {| errorMessage := "disk full";
                                  errorStack := None |}) |}).
  reflexivity.
Defined.

(** X2. The serialized form tells values apart: two values with the same
    serialized argument are the same undefined, null or primitive, or are
    two Errors with the same message and the same stack. *)
Theorem serializeArg_injective (x y : Value) (a : ISubprocessApiCallArg) :
  serializeArg x = Return a ->
  serializeArg y = Return a ->
  observationallyEqual x y.
Proof.
  intros Hx Hy.
  destruct x as [| | s | n | b | [xn xm xs] | c | f | d | z]; simpl in Hx;
    try discriminate Hx;
    try (unfold throwNotSupported in Hx; destruct (ToString (Object c));
         discriminate Hx);
    injection Hx as <-;
    destruct y as [| | s' | n' | b' | [yn ym ys] | c' | f' | d' | z'];
    simpl in Hy; try discriminate Hy;
    try (unfold throwNotSupported in Hy; destruct (ToString (Object c'));
         discriminate Hy);
    simpl; try reflexivity; try (injection Hy as ->; reflexivity).
  injection Hy as -> ->. eexists. split; [reflexivity |]. by split.
Qed.

Lemma serializeArg_injective_witness :
  observationallyEqual
    (ErrorInstance {| name := "TypeError"; message := "x is not a function";
                      stack := None |})
    (ErrorInstance {| name := "Error"; message := "x is not a function";
                      stack := None |}).
Proof.
  exact (serializeArg_injective
           (ErrorInstance {| name := "TypeError";
                             message := "x is not a function"; stack := None |})
           (ErrorInstance {| name := "Error";
                             message := "x is not a function"; stack := None |})
           _ eq_refl eq_refl).
Defined.

(** X3. [serializeArg] returns exactly for undefined, null, strings,
    numbers, booleans and Errors, and throws for every other value.  The
    arguments it returns are exactly the canonical ones: every argument
    returned is canonical, and every canonical argument is returned for
    some value. *)
Theorem serializeArg_image (x : Value) (a : ISubprocessApiCallArg) :
  ((exists returned, serializeArg x = Return returned)
   <-> isSupported x = true) /\
  ((exists e, serializeArg x = Throw e) <-> isSupported x = false) /\
  ((exists v, serializeArg v = Return a) <-> canonical a = true).
Proof.
  split; [| split].
  - split.
    + intros [returned H].
      destruct x as [| | s | n | b | e | [c | reason] | f | d | z];
        simpl in *; done.
    + destruct x; simpl; intros H; try discriminate; eauto.
  - split.
    + intros [e H]. destruct x; simpl in *; done.
    + destruct x as [| | s | n | b | e | [c | reason] | f | d | z]; simpl;
        intros H; try discriminate; unfold throwNotSupported; simpl; eauto.
  - split.
    + intros [v H].
      destruct v as [| | s | n | b | e | [c | reason] | f | d | z];
        simpl in H; try discriminate H; by injection H as <-.
    + destruct a as [[[] | shown] [[v | e] |]]; unfold canonical; simpl;
        intros H; try discriminate.
      * by exists undefined.
      * by exists null.
      * exists v. destruct v; simpl in *; try discriminate; done.
      * destruct e as [m s].
        by exists (ErrorInstance {| name := "Error"; message := m; stack := s |}).
Qed.

End CodecProperties.

(** ** The message routers *)

Module RouterProperties.
Import Js Eff Eff.Notations Router.

Lemma asked_S d message first count :
  asked d message first (S count)
  = CanHandle d first message :: asked d message (S first) count.
Proof. reflexivity. Qed.

Lemma returnOrThrow_run thrown (log : Calls) :
  returnOrThrow thrown log = (outcome thrown, log).
Proof. destruct thrown; reflexivity. Qed.

(** One lemma per loop and per way through its body. *)
Lemma parent_loop_nil index message log :
  receiveFromParentProcessLoop index [] message log
  = (Throw (noManagerError FromParentProcess message), log).
Proof. reflexivity. Qed.

Lemma parent_loop_claims index manager rest message log :
  canHandleMessageFromParentProcess manager message = true ->
  receiveFromParentProcessLoop index (manager :: rest) message log
  = (outcome (receiveMessageFromParentProcess manager message),
     log ++ [CanHandle FromParentProcess index message;
             Receive FromParentProcess index message]).
Proof.
  intros H. simpl. unfold call; eff. rewrite H.
  rewrite returnOrThrow_run. by rewrite <- app_assoc.
Qed.

Lemma parent_loop_declines index manager rest message log :
  canHandleMessageFromParentProcess manager message = false ->
  receiveFromParentProcessLoop index (manager :: rest) message log
  = receiveFromParentProcessLoop (S index) rest message
      (log ++ [CanHandle FromParentProcess index message]).
Proof. intros H. simpl. unfold call; eff. by rewrite H. Qed.

Lemma subprocess_loop_nil index message log :
  receiveFromSubprocessLoop index [] message log
  = (Throw (noManagerError FromSubprocess message), log).
Proof. reflexivity. Qed.

Lemma subprocess_loop_claims index manager rest message log :
  canHandleMessageFromSubprocess manager message = true ->
  receiveFromSubprocessLoop index (manager :: rest) message log
  = (outcome (receiveMessageFromSubprocess manager message),
     log ++ [CanHandle FromSubprocess index message;
             Receive FromSubprocess index message]).
Proof.
  intros H. simpl. unfold call; eff. rewrite H.
  rewrite returnOrThrow_run. by rewrite <- app_assoc.
Qed.

Lemma subprocess_loop_declines index manager rest message log :
  canHandleMessageFromSubprocess manager message = false ->
  receiveFromSubprocessLoop index (manager :: rest) message log
  = receiveFromSubprocessLoop (S index) rest message
      (log ++ [CanHandle FromSubprocess index message]).
Proof. intros H. simpl. unfold call; eff. by rewrite H. Qed.

Lemma loop_nil d index message log :
  loop d index [] message log = (Throw (noManagerError d message), log).
Proof. destruct d; reflexivity. Qed.

Lemma loop_claims d index manager rest message log :
  canHandle d manager message = true ->
  loop d index (manager :: rest) message log
  = (outcome (receive d manager message),
     log ++ [CanHandle d index message; Receive d index message]).
Proof.
  destruct d; [apply parent_loop_claims | apply subprocess_loop_claims].
Qed.

Lemma loop_declines d index manager rest message log :
  canHandle d manager message = false ->
  loop d index (manager :: rest) message log
  = loop d (S index) rest message (log ++ [CanHandle d index message]).
Proof.
  destruct d; [apply parent_loop_declines | apply subprocess_loop_declines].
Qed.

Lemma dispatch_loop d managers message :
  dispatch d managers message = loop d 0 managers message.
Proof. destruct d; reflexivity. Qed.

Lemma loop_first_claimant d message managers :
  forall index k manager log,
    firstClaimant d managers message k manager ->
    loop d index managers message log
    = (outcome (receive d manager message),
       log ++ asked d message index (S k)
           ++ [Receive d (index + k) message]).
Proof.
  induction managers as [| head rest IH]; intros index k manager log (Hk & Hc & Hlt).
  - discriminate Hk.
  - destruct k as [| k].
    + injection Hk as ->. rewrite loop_claims by done.
      by rewrite Nat.add_0_r.
    + assert (canHandle d head message = false) as Hhead
        by (apply (Hlt 0 head); [lia | done]).
      rewrite loop_declines by done.
      rewrite (IH (S index) k manager).
      * rewrite (asked_S d message index (S k)).
        rewrite <- app_assoc. simpl.
        by replace (index + S k) with (S (index + k)) by lia.
      * split; [done |]. split; [done |].
        intros j other Hj Hother. apply (Hlt (S j) other); [lia | done].
Qed.

Lemma loop_unclaimed d message managers :
  forall index log,
    unclaimed d managers message ->
    loop d index managers message log
    = (Throw (noManagerError d message),
       log ++ asked d message index (length managers)).
Proof.
  induction managers as [| head rest IH]; intros index log Hun.
  - rewrite loop_nil. unfold asked. simpl. by rewrite app_nil_r.
  - rewrite loop_declines by (apply Hun; left).
    rewrite IH.
    + simpl length. rewrite asked_S. by rewrite <- app_assoc.
    + intros manager Hin. apply Hun. by right.
Qed.

(** Some manager is the first claimant, or none claims the message. *)
Lemma claimed_or_unclaimed d managers message :
  (exists k manager, firstClaimant d managers message k manager) \/
  unclaimed d managers message.
Proof.
  induction managers as [| head rest IH].
  - right. intros manager Hin. inversion Hin.
  - destruct (canHandle d head message) eqn:Hhead.
    + left. exists 0, head. split; [done |]. split; [done |].
      intros j other Hj. lia.
    + destruct IH as [(k & manager & Hk & Hc & Hlt) | Hun].
      * left. exists (S k), manager. split; [done |]. split; [done |].
        intros [| j] other Hj Hother.
        -- by injection Hother as <-.
        -- apply (Hlt j other); [lia | done].
      * right. intros manager Hin. inversion Hin; subst; [done | by apply Hun].
Qed.

(** C5. In either direction the router asks the registered managers in
    registration order whether they can handle the message, stops at the
    first that says yes, hands the message to that manager and to no
    other, and ends as that manager's handler ends; when no manager
    claims the message it has asked every manager, handed the message to
    none, and throws the error that names the message's type. *)
Theorem dispatch_first_claimant (d : Direction)
    (managers : list SubprocessCommunicationManagerBase)
    (message : ISubprocessMessageBase) (log : Calls) :
  (forall k manager,
      firstClaimant d managers message k manager ->
      dispatch d managers message log
      = (outcome (receive d manager message),
         log ++ asked d message 0 (S k) ++ [Receive d k message])) /\
  (unclaimed d managers message ->
   dispatch d managers message log
   = (Throw (NewError
        ("Subprocess communication manager. No communication manager can handle message type "
         +:+ Codec.dquote +:+ type message +:+ Codec.dquote
         +:+ " from " +:+ origin d +:+ ".")),
      log ++ asked d message 0 (length managers))).
Proof.
  rewrite dispatch_loop. split.
  - intros k manager H. by rewrite (loop_first_claimant d message managers 0 k manager).
  - intros H. by rewrite loop_unclaimed.
Qed.

(** Of two managers with disjoint types, the owner alone receives. *)
Example dispatch_to_owner :
  dispatch FromSubprocess
    (push (push [] [terminalProviderManager]) [scopedLoggerManager])
    loggerRequest []
  = (Return tt,
     [CanHandle FromSubprocess 0 loggerRequest;
      CanHandle FromSubprocess 1 loggerRequest;
      Receive FromSubprocess 1 loggerRequest]).
Proof. reflexivity. Qed.

Example dispatch_unroutable :
  dispatch FromParentProcess [terminalProviderManager; scopedLoggerManager]
    strayMessage []
  = (Throw (NewError
       ("Subprocess communication manager. No communication manager can handle message type "
        +:+ Codec.dquote +:+ "heartbeat" +:+ Codec.dquote
        +:+ " from parent process.")),
     [CanHandle FromParentProcess 0 strayMessage;
      CanHandle FromParentProcess 1 strayMessage]).
Proof. reflexivity. Qed.

(** *** Beyond the claims *)

Lemma firstClaimant_app d managers more message k manager :
  firstClaimant d managers message k manager ->
  firstClaimant d (managers ++ more) message k manager.
Proof.
  intros (Hk & Hc & Hlt). split; [| split; [done |]].
  - by apply lookup_app_l_Some.
  - intros j other Hj Hother. apply (Hlt j other Hj).
    rewrite lookup_app_l in Hother; [done |].
    apply lookup_lt_Some in Hk. lia.
Qed.

Lemma loop_app_unclaimed d message more managers :
  forall index log,
    unclaimed d managers message ->
    loop d index (managers ++ more) message log
    = loop d (index + length managers) more message
        (log ++ asked d message index (length managers)).
Proof.
  induction managers as [| head rest IH]; intros index log Hun.
  - simpl. unfold asked. simpl. by rewrite Nat.add_0_r, app_nil_r.
  - rewrite <- app_comm_cons. rewrite loop_declines by (apply Hun; left).
    rewrite IH by (intros manager Hin; apply Hun; by right).
    simpl length. rewrite asked_S. rewrite <- app_assoc. simpl.
    by replace (index + S (length rest)) with (S index + length rest) by lia.
Qed.

(** X4. Registering more managers never takes a message away from a
    manager that claims it: a message some registered manager claims is
    routed in the same way, with the same calls, after any further
    [push].  A message no registered manager claims goes to the managers
    pushed later, which are asked in their order after all the earlier
    ones. *)
Theorem dispatch_after_push (d : Direction)
    (managers more : list SubprocessCommunicationManagerBase)
    (message : ISubprocessMessageBase) (log : Calls) :
  (forall k manager,
      firstClaimant d managers message k manager ->
      dispatch d (push managers more) message log
      = dispatch d managers message log) /\
  (unclaimed d managers message ->
   dispatch d (push managers more) message log
   = loop d (length managers) more message
       (log ++ asked d message 0 (length managers))).
Proof.
  unfold push. rewrite !dispatch_loop. split.
  - intros k manager H.
    rewrite (loop_first_claimant d message managers 0 k manager) by done.
    apply (loop_first_claimant d message (managers ++ more) 0 k manager).
    by apply firstClaimant_app.
  - intros H. by rewrite loop_app_unclaimed.
Qed.

End RouterProperties.

(** ** The parent side *)

Module ParentProperties.
Import Js Eff Eff.Notations Router Parent.

(** *** One message *)

Lemma onMessage_duplicate_exit managers message st :
  isExit message = true -> hasExited st = true ->
  onMessage managers message st = (Throw (duplicateExitMessage message), st).
Proof.
  unfold isExit, onMessage. intros -> H.
  eff. by rewrite H.
Qed.

Lemma onMessage_first_exit managers message st :
  isExit message = true -> hasExited st = false ->
  onMessage managers message st
  = match deserializeExitError (error message) with
    | Return completion =>
        (Return tt, set_exitError completion (set_hasExited true st))
    | Throw e => (Throw e, set_hasExited true st)
    end.
Proof.
  unfold isExit, onMessage. intros -> H.
  eff. rewrite H.
  by destruct (deserializeExitError (error message)).
Qed.

Lemma onMessage_after_exit managers message st :
  isExit message = false -> hasExited st = true ->
  onMessage managers message st = (Throw messageAfterExit, st).
Proof.
  unfold isExit, onMessage. intros -> H.
  eff. by rewrite H.
Qed.

Lemma onMessage_before_exit managers message st :
  isExit message = false -> hasExited st = false ->
  onMessage managers message st
  = let (r, log) := _receiveMessageFromSubprocess managers message (calls st) in
    (r, set_calls log st).
Proof.
  unfold isExit, onMessage. intros -> H.
  eff. by rewrite H.
Qed.

(** *** What a message can change *)

Lemma onMessage_effect managers message st :
  let st' := (onMessage managers message st).2 in
  promise st' = promise st /\
  hasExited st' = hasExited st || isExit message.
Proof.
  destruct (isExit message) eqn:Hexit, (hasExited st) eqn:Hhas; simpl.
  - by rewrite onMessage_duplicate_exit.
  - rewrite onMessage_first_exit by done.
    by destruct (deserializeExitError (error message)).
  - by rewrite onMessage_after_exit.
  - rewrite onMessage_before_exit by done.
    destruct (_receiveMessageFromSubprocess managers message (calls st)).
    simpl. by rewrite Hhas.
Qed.

Lemma run_cons managers event events st :
  run managers (event :: events) st
  = ((emit managers event st).1
       :: (run managers events (emit managers event st).2).1,
     (run managers events (emit managers event st).2).2).
Proof.
  simpl. destruct (emit managers event st) as [r st']. simpl.
  by destruct (run managers events st').
Qed.

(** Messages never settle the promise. *)
Lemma run_messages_promise managers messages :
  forall st,
    promise (run managers (message_event <$> messages) st).2 = promise st.
Proof.
  induction messages as [| message rest IH]; intros st; [done |].
  rewrite fmap_cons, run_cons. simpl. rewrite IH.
  apply onMessage_effect.
Qed.

Lemma onClose_hasExited st : hasExited (onClose st).2 = hasExited st.
Proof.
  unfold onClose, reject, resolve; eff; unfold settle.
  destruct (ToBoolean (exitError st)), (negb (hasExited st)), (promise st);
    reflexivity.
Qed.

(** [hasExited] holds exactly when an exit message has been delivered. *)
Lemma run_hasExited managers events :
  forall st,
    hasExited (run managers events st).2
    = hasExited st || existsb isExitEvent events.
Proof.
  induction events as [| event rest IH]; intros st.
  - simpl. by rewrite orb_false_r.
  - rewrite run_cons. simpl. rewrite IH. destruct event as [message |]; simpl.
    + destruct (onMessage_effect managers message st) as [_ ->].
      by rewrite orb_assoc.
    + by rewrite onClose_hasExited.
Qed.

(** *** The close event *)

Lemma onClose_pending st :
  promise st = Pending ->
  onClose st =
  (Return tt,
   {| hasExited := hasExited st; exitError := exitError st;
      promise := closeOutcome st; calls := calls st |}).
Proof.
  intros H. unfold onClose, closeOutcome, reject, resolve; eff.
  destruct (ToBoolean (exitError st)), (negb (hasExited st));
    unfold settle; by rewrite H.
Qed.

Lemma run_exitError managers events :
  forall st,
    existsb isExitEvent events = false ->
    exitError (run managers events st).2 = exitError st.
Proof.
  induction events as [| event rest IH]; intros st; [done |].
  rewrite run_cons. simpl. intros [Hevent Hrest]%orb_false_elim.
  rewrite IH by done. destruct event as [message |]; simpl in *.
  - destruct (hasExited st) eqn:Hhas.
    + by rewrite onMessage_after_exit.
    + rewrite onMessage_before_exit by done.
      by destruct (_receiveMessageFromSubprocess managers message (calls st)).
  - unfold onClose, reject, resolve; eff; unfold settle.
    destruct (ToBoolean (exitError st)), (negb (hasExited st)), (promise st);
      reflexivity.
Qed.

Lemma isExit_type message : isExit message = true -> type message = "exit".
Proof. unfold isExit. by intros ->%String.eqb_eq. Qed.

Lemma existsb_isExitEvent messages :
  existsb isExitEvent (message_event <$> messages) = existsb isExit messages.
Proof.
  induction messages as [| message rest IH]; [done |].
  rewrite fmap_cons. simpl. by rewrite IH.
Qed.

(** *** The claims *)

(** C2, as the code has it.  Whatever messages the worker sent, the
    promise is pending until the close event.  The close event rejects it
    with the recorded completion error when that value is truthy, which
    every Error object is; otherwise it rejects it with the "exited before
    sending exit message" error when no exit message was received, and
    resolves it when one was, also when the completion value that message
    carried is falsy (null, false, 0, NaN, the empty string). *)
Theorem close_settles_promise
    (managers : list SubprocessCommunicationManagerBase)
    (messages : list ISubprocessMessageBase) :
  promise (after managers (message_event <$> messages)) = Pending /\
  promise (onClose (after managers (message_event <$> messages))).2
  = (if ToBoolean (exitError (after managers (message_event <$> messages)))
     then Rejected (Raised (exitError (after managers (message_event <$> messages))))
     else if negb (hasExited (after managers (message_event <$> messages)))
     then Rejected
            (NewError ("Subprocess exited before sending "
                       +:+ Codec.dquote +:+ "exit" +:+ Codec.dquote +:+ " message."))
     else Resolved) /\
  (forall e,
      exitError (after managers (message_event <$> messages)) = ErrorInstance e ->
      promise (onClose (after managers (message_event <$> messages))).2
      = Rejected (Raised (ErrorInstance e))) /\
  (existsb isExit messages = false ->
   promise (onClose (after managers (message_event <$> messages))).2
   = Rejected exitedBeforeExitMessage).
Proof.
  assert (promise (after managers (message_event <$> messages)) = Pending)
    as Hpending by (unfold after; by rewrite run_messages_promise).
  split; [done |]. rewrite (onClose_pending _ Hpending). simpl.
  split; [reflexivity |]. unfold closeOutcome. split.
  - by intros e ->.
  - intros Hnone. unfold after.
    rewrite run_exitError by (by rewrite existsb_isExitEvent).
    rewrite run_hasExited, existsb_isExitEvent, Hnone. reflexivity.
Qed.

(** C2 as stated fails: a completion error that is falsy was recorded,
    and the close event resolves the promise instead of rejecting it with
    that value. *)
Lemma close_after_falsy_completion_error :
  hasExited (after [] [message_event exitMessageFalse]) = true /\
  exitError (after [] [message_event exitMessageFalse]) = Bool false /\
  promise (onClose (after [] [message_event exitMessageFalse])).2 = Resolved /\
  promise (onClose (after [] [message_event exitMessageFalse])).2
  <> closeOutcomeAsStated (after [] [message_event exitMessageFalse]).
Proof. repeat split; try reflexivity. discriminate. Qed.

(** On the values the variable's type admits, an Error or undefined, the
    two readings agree. *)
Lemma closeOutcome_typed st :
  (exitError st = undefined \/ exists e, exitError st = ErrorInstance e) ->
  closeOutcome st = closeOutcomeAsStated st.
Proof.
  unfold closeOutcome, closeOutcomeAsStated.
  by intros [-> | [e ->]].
Qed.

(** C3. After any events, an exit message that arrives when an exit
    message was delivered before makes the handler throw the "duplicate
    exit message" error and record nothing.  An exit message that is the
    first sets [hasExited] and stores in [exitError], which was undefined
    until then, the value of the argument it carries: undefined under
    the tag Undefined, null under Null, the carried value under
    Primitive, and under Error a new Error with the carried message and
    stack.  When the argument has an unknown tag or lacks what its tag
    needs, the handler ends as [deserializeArg] ends on that argument,
    with [hasExited] already set. *)
Theorem exit_message_recorded_once
    (managers : list SubprocessCommunicationManagerBase)
    (events : list ChildProcessEvent)
    (message : ISubprocessMessageBase) (arg : Codec.ISubprocessApiCallArg) :
  isExit message = true ->
  error message = Some arg ->
  if existsb isExitEvent events
  then
    hasExited (after managers events) = true /\
    onMessage managers message (after managers events)
    = (Throw (NewError
         ("Subprocess communication error. Received a duplicate "
          +:+ Codec.dquote +:+ "exit" +:+ Codec.dquote +:+ " message.")),
       after managers events)
  else
    hasExited (after managers events) = false /\
    exitError (after managers events) = undefined /\
    onMessage managers message (after managers events)
    = match Codec.type arg, Codec.value arg with
      | Codec.Tag Codec.Undefined, _ =>
          recorded undefined (after managers events)
      | Codec.Tag Codec.Null, _ =>
          recorded null (after managers events)
      | Codec.Tag Codec.Primitive, Some (Codec.Plain v) =>
          recorded v (after managers events)
      | Codec.Tag Codec.Error, Some (Codec.SerializedError e) =>
          recorded
            (ErrorInstance {| name := "Error";
                              message := Codec.errorMessage e;
                              stack := Codec.errorStack e |})
            (after managers events)
      | Codec.UnknownTag shown, _ =>
          thrownWhileRecording
            (NewError ("Unexpected arg type "
                       +:+ Codec.dquote +:+ shown +:+ Codec.dquote +:+ "."))
            (after managers events)
      | _, _ =>
          match Codec.deserializeArg arg with
          | Return completionError =>
              recorded completionError (after managers events)
          | Throw e => thrownWhileRecording e (after managers events)
          end
      end.
Proof.
  intros Hexit Harg.
  assert (hasExited (after managers events) = existsb isExitEvent events)
    as Hhas by (unfold after; by rewrite run_hasExited).
  destruct (existsb isExitEvent events) eqn:Hevents; (split; [done |]).
  - rewrite onMessage_duplicate_exit by done.
    unfold duplicateExitMessage. by rewrite (isExit_type _ Hexit).
  - split; [unfold after; by rewrite run_exitError |].
    rewrite onMessage_first_exit by done. rewrite Harg.
    destruct arg as [[[] | shown] [[v | e] |]]; reflexivity.
Qed.

(** C4. After any events, a message that is not an exit message makes the
    handler throw the "message after exit" error, with no call on any
    communication manager, when an exit message was delivered before.
    Otherwise the message goes to the communication managers: they are
    asked in registration order whether they can handle a message from
    the subprocess, the first that can receives it, and the handler ends
    as that manager's [receiveMessageFromSubprocess] ends; when none can,
    all have been asked and the handler throws the router's "no
    communication manager can handle" error.  [hasExited], [exitError]
    and the promise stay as they are. *)
Theorem message_after_exit_rejected
    (managers : list SubprocessCommunicationManagerBase)
    (events : list ChildProcessEvent)
    (message : ISubprocessMessageBase) :
  isExit message = false ->
  if existsb isExitEvent events
  then
    onMessage managers message (after managers events)
    = (Throw (NewError
         ("Subprocess communication error. Received a message after the subprocess "
          +:+ "has indicated that it has exited")),
       after managers events)
  else
    (forall k manager,
        firstClaimant FromSubprocess managers message k manager ->
        onMessage managers message (after managers events)
        = (outcome
             (receiveMessageFromSubprocess manager message),
           {| hasExited := false;
              exitError := exitError (after managers events);
              promise := promise (after managers events);
              calls := calls (after managers events)
                       ++ asked FromSubprocess message 0 (S k)
                       ++ [Receive FromSubprocess k message] |})) /\
    (unclaimed FromSubprocess managers message ->
     onMessage managers message (after managers events)
     = (Throw (NewError
          ("Subprocess communication manager. No communication manager can handle message type "
           +:+ Codec.dquote +:+ type message +:+ Codec.dquote
           +:+ " from subprocess.")),
        {| hasExited := false;
           exitError := exitError (after managers events);
           promise := promise (after managers events);
           calls := calls (after managers events)
                    ++ asked FromSubprocess message 0 (length managers) |})).
Proof.
  intros Hexit.
  assert (hasExited (after managers events) = existsb isExitEvent events)
    as Hhas by (unfold after; by rewrite run_hasExited).
  destruct (existsb isExitEvent events).
  - by rewrite onMessage_after_exit.
  - rewrite onMessage_before_exit by done.
    change (_receiveMessageFromSubprocess managers message)
      with (loop FromSubprocess 0 managers message).
    split.
    + intros k manager Hfirst.
      rewrite (RouterProperties.loop_first_claimant FromSubprocess message
                 managers 0 k manager) by done.
      unfold set_calls. simpl. by rewrite Hhas.
    + intros Hnone.
      rewrite (RouterProperties.loop_unclaimed FromSubprocess message managers)
        by done.
      unfold set_calls. simpl. by rewrite Hhas.
Qed.

(** A worker that reports success and then speaks again. *)
Lemma exit_message_recorded_once_witness :
  (hasExited (after [terminalProviderManager] [message_event terminalMessage])
   = false /\
   exitError (after [terminalProviderManager] [message_event terminalMessage])
   = undefined /\
   onMessage [terminalProviderManager] (ISubprocessExitMessage serializedFailure)
     (after [terminalProviderManager] [message_event terminalMessage])
   = recorded
       (ErrorInstance {| name := "Error"; message := "compile failed";
                         stack := None |})
       (after [terminalProviderManager] [message_event terminalMessage])) /\
  (hasExited (after [] [message_event exitMessageSuccess]) = true /\
   onMessage [] (ISubprocessExitMessage serializedFailure)
     (after [] [message_event exitMessageSuccess])
   = (Throw (NewError
        ("Subprocess communication error. Received a duplicate "
         +:+ Codec.dquote +:+ "exit" +:+ Codec.dquote +:+ " message.")),
      after [] [message_event exitMessageSuccess])).
Proof.
  split.
  - exact (exit_message_recorded_once [terminalProviderManager]
             [message_event terminalMessage]
             (ISubprocessExitMessage serializedFailure) serializedFailure
             eq_refl eq_refl).
  - exact (exit_message_recorded_once [] [message_event exitMessageSuccess]
             (ISubprocessExitMessage serializedFailure) serializedFailure
             eq_refl eq_refl).
Defined.

Lemma message_after_exit_rejected_witness :
  onMessage [terminalProviderManager; scopedLoggerManager] loggerRequest
    (after [terminalProviderManager; scopedLoggerManager]
       [message_event exitMessageSuccess])
  = (Throw (NewError
       ("Subprocess communication error. Received a message after the subprocess "
        +:+ "has indicated that it has exited")),
     {| hasExited := true; exitError := undefined; promise := Pending;
        calls := [] |}) /\
  onMessage [terminalProviderManager; scopedLoggerManager] loggerRequest
    (after [terminalProviderManager; scopedLoggerManager] [])
  = (Return tt,
     {| hasExited := false; exitError := undefined; promise := Pending;
        calls := [CanHandle FromSubprocess 0 loggerRequest;
                  CanHandle FromSubprocess 1 loggerRequest;
                  Receive FromSubprocess 1 loggerRequest] |}).
Proof.
  split.
  - exact (message_after_exit_rejected
             [terminalProviderManager; scopedLoggerManager]
             [message_event exitMessageSuccess] loggerRequest eq_refl).
  - apply (proj1 (message_after_exit_rejected
                    [terminalProviderManager; scopedLoggerManager] []
                    loggerRequest eq_refl) 1 scopedLoggerManager).
    split; [reflexivity |]. split; [reflexivity |].
    intros j other Hj Hother. destruct j as [| j]; [| lia].
    by injection Hother as <-.
Defined.

(** The first exit message of a failed worker is recorded. *)
Example first_exit_message_recorded :
  onMessage [] (ISubprocessExitMessage serializedFailure) (after [] [])
  = (Return tt,
     {| hasExited := true;
        exitError := ErrorInstance {| name := "Error";
                                      message := "compile failed";
                                      stack := None |};
        promise := Pending; calls := [] |}).
Proof. reflexivity. Qed.

(** A worker killed before it sent anything. *)
Example close_without_exit_message :
  promise (after [] [close_event]) = Rejected exitedBeforeExitMessage.
Proof. reflexivity. Qed.

Example close_after_failure :
  promise (after [] [message_event (ISubprocessExitMessage serializedFailure); close_event])
  = Rejected (Raised (ErrorInstance {| name := "Error";
                                       message := "compile failed";
                                       stack := None |})).
Proof. reflexivity. Qed.

Example close_after_success :
  promise (after [] [message_event exitMessageSuccess; close_event]) = Resolved.
Proof. reflexivity. Qed.

(** *** Beyond the claims *)

Lemma run_app managers events later :
  forall st,
    run managers (events ++ later) st
    = ((run managers events st).1
         ++ (run managers later (run managers events st).2).1,
       (run managers later (run managers events st).2).2).
Proof.
  induction events as [| event rest IH]; intros st.
  - simpl. by destruct (run managers later st).
  - rewrite <- app_comm_cons, !run_cons. by rewrite IH.
Qed.

Lemma run_two managers first second st :
  (run managers [first; second] st).2
  = (emit managers second (emit managers first st).2).2.
Proof.
  rewrite !run_cons. reflexivity.
Qed.

Lemma onClose_frame st :
  hasExited (onClose st).2 = hasExited st /\
  exitError (onClose st).2 = exitError st /\
  calls (onClose st).2 = calls st /\
  (promise st <> Pending -> promise (onClose st).2 = promise st).
Proof.
  unfold onClose, reject, resolve; eff; unfold settle.
  destruct (ToBoolean (exitError st)), (negb (hasExited st)),
    (promise st) eqn:Hpromise;
    simpl; repeat split; try done; intros H; by destruct H.
Qed.

(** What the handler throws at a message that comes after the exit
    message. *)
Lemma emit_after_exit managers event st :
  hasExited st = true ->
  hasExited (emit managers event st).2 = true /\
  exitError (emit managers event st).2 = exitError st /\
  calls (emit managers event st).2 = calls st /\
  (forall message,
      event = message_event message ->
      (emit managers event st).1
      = Throw (if isExit message then duplicateExitMessage message
               else messageAfterExit)).
Proof.
  intros Hhas. destruct event as [message |]; simpl.
  - destruct (isExit message) eqn:Hexit.
    + rewrite onMessage_duplicate_exit by done. simpl.
      split; [done |]. split; [done |]. split; [done |]. intros ? [= <-]. by rewrite Hexit.
    + rewrite onMessage_after_exit by done. simpl.
      split; [done |]. split; [done |]. split; [done |]. intros ? [= <-]. by rewrite Hexit.
  - destruct (onClose_frame st) as (H1 & H2 & H3 & _).
    rewrite H1, H2, H3. split; [done |]. split; [done |]. split; [done |]. intros ? [=].
Qed.

(** X5. Once an exit message has been recorded nothing but the promise
    changes any more: whatever events follow, [hasExited] stays set, the
    recorded completion error and the calls made on the communication
    managers stay as they are, and every message among those events
    makes the handler throw, the "duplicate exit message" error for an
    exit message and the "message after exit" error for any other. *)
Theorem nothing_recorded_after_exit
    (managers : list SubprocessCommunicationManagerBase)
    (events : list ChildProcessEvent) (st : State) :
  hasExited st = true ->
  hasExited (run managers events st).2 = true /\
  exitError (run managers events st).2 = exitError st /\
  calls (run managers events st).2 = calls st /\
  (forall i message,
      events !! i = Some (message_event message) ->
      (run managers events st).1 !! i
      = Some (Throw (if isExit message then duplicateExitMessage message
                     else messageAfterExit))).
Proof.
  revert st. induction events as [| event rest IH]; intros st Hhas.
  - simpl. split; [done |]. split; [done |]. split; [done |]. intros i message H. done.
  - rewrite run_cons. simpl.
    destruct (emit_after_exit managers event st Hhas) as (H1 & H2 & H3 & H4).
    destruct (IH _ H1) as (I1 & I2 & I3 & I4).
    rewrite I1, I2, I3, H2, H3. split; [done |]. split; [done |]. split; [done |].
    intros [| i] message Hi; simpl in *.
    + injection Hi as ->. by rewrite (H4 message).
    + by apply I4.
Qed.

Lemma nothing_recorded_after_exit_witness :
  hasExited
    (run [terminalProviderManager]
       [message_event terminalMessage; message_event exitMessageSuccess;
        close_event]
       (after [] [message_event exitMessageFalse])).2 = true /\
  exitError
    (run [terminalProviderManager]
       [message_event terminalMessage; message_event exitMessageSuccess;
        close_event]
       (after [] [message_event exitMessageFalse])).2
  = exitError (after [] [message_event exitMessageFalse]) /\
  calls
    (run [terminalProviderManager]
       [message_event terminalMessage; message_event exitMessageSuccess;
        close_event]
       (after [] [message_event exitMessageFalse])).2
  = calls (after [] [message_event exitMessageFalse]) /\
  (forall i message,
      [message_event terminalMessage; message_event exitMessageSuccess;
       close_event] !! i = Some (message_event message) ->
      (run [terminalProviderManager]
         [message_event terminalMessage; message_event exitMessageSuccess;
          close_event]
         (after [] [message_event exitMessageFalse])).1 !! i
      = Some (Throw (if isExit message then duplicateExitMessage message
                     else messageAfterExit))).
Proof.
  apply (nothing_recorded_after_exit [terminalProviderManager]
           [message_event terminalMessage; message_event exitMessageSuccess;
            close_event]
           (after [] [message_event exitMessageFalse])).
  reflexivity.
Defined.

(** X7. An exit message whose argument cannot be deserialized still
    counts as the exit message.  When it is the first exit message, the
    handler throws what [deserializeArg] threw, and the close event that
    follows resolves the promise: no completion error was stored, and
    [hasExited] was set before the argument was read. *)
Theorem undeserializable_exit_resolves
    (managers : list SubprocessCommunicationManagerBase)
    (messages : list ISubprocessMessageBase)
    (message : ISubprocessMessageBase) (e : Exception) :
  existsb isExit messages = false ->
  isExit message = true ->
  deserializeExitError (error message) = Throw e ->
  onMessage managers message (after managers (message_event <$> messages))
  = (Throw e, set_hasExited true (after managers (message_event <$> messages)))
  /\
  promise
    (after managers
       ((message_event <$> messages) ++ [message_event message; close_event]))
  = Resolved.
Proof.
  intros Hnone Hexit Hthrow.
  assert (hasExited (after managers (message_event <$> messages)) = false)
    as Hhas.
  { unfold after. by rewrite run_hasExited, existsb_isExitEvent, Hnone. }
  assert (exitError (after managers (message_event <$> messages)) = undefined)
    as Herr.
  { unfold after. by rewrite run_exitError by (by rewrite existsb_isExitEvent). }
  assert (promise (after managers (message_event <$> messages)) = Pending)
    as Hpending.
  { unfold after. by rewrite run_messages_promise. }
  assert (onMessage managers message (after managers (message_event <$> messages))
          = (Throw e,
             set_hasExited true (after managers (message_event <$> messages))))
    as Hstep.
  { rewrite onMessage_first_exit by done. by rewrite Hthrow. }
  split; [done |].
  unfold after at 1. rewrite run_app, run_two.
  fold (after managers (message_event <$> messages)).
  cbn [emit snd]. rewrite Hstep. cbn [snd].
  rewrite onClose_pending by done.
  unfold closeOutcome. simpl. by rewrite Herr.
Qed.

Lemma undeserializable_exit_resolves_witness :
  onMessage [] unknownTagExitMessage (after [] (message_event <$> [terminalMessage]))
  = (Throw (NewError
       ("Unexpected arg type " +:+ Codec.dquote +:+ "9" +:+ Codec.dquote +:+ ".")),
     set_hasExited true (after [] (message_event <$> [terminalMessage])))
  /\
  promise
    (after []
       ((message_event <$> [terminalMessage])
        ++ [message_event unknownTagExitMessage; close_event]))
  = Resolved.
Proof.
  exact (undeserializable_exit_resolves [] [terminalMessage]
           unknownTagExitMessage _ eq_refl eq_refl eq_refl).
Defined.

End ParentProperties.

(** ** The worker side *)

Module BootstrapProperties.
Import Js Eff Eff.Notations Router Bootstrap.

Lemma finally_serializable error arg p :
  Codec.serializeArg error = Return arg ->
  finally error p
  = (Return tt,
     {| listeners := [];
        calls := calls p ++ [removeAllListeners; send (ISubprocessExitMessage arg)] |}).
Proof.
  intros H. unfold finally, process_removeAllListeners, process_send; eff. rewrite H. simpl. by rewrite <- app_assoc.
Qed.

Lemma finally_unserializable error e p :
  Codec.serializeArg error = Throw e ->
  finally error p
  = (Throw e,
     {| listeners := []; calls := calls p ++ [removeAllListeners] |}).
Proof.
  intros H. unfold finally, process_removeAllListeners; eff.
  by rewrite H.
Qed.

Lemma exitMessagesSent_app log log' :
  exitMessagesSent (log ++ log') = exitMessagesSent log ++ exitMessagesSent log'.
Proof. apply omap_app. Qed.

Lemma inner_invoke_run invokeAsync error p :
  tryAwait invokeAsync = Some error ->
  SUBPROCESS_RUNNER_INNER_INVOKE invokeAsync p
  = match Codec.serializeArg error with
    | Return arg =>
        (Fulfilled,
         {| listeners := [];
            calls := calls p ++ [on "message" forwardToRouter;
                                 removeAllListeners; send (ISubprocessExitMessage arg)] |})
    | Throw e =>
        (Rejected e,
         {| listeners := [];
            calls := calls p ++ [on "message" forwardToRouter;
                                 removeAllListeners] |})
    end.
Proof.
  intros Hawait. unfold SUBPROCESS_RUNNER_INNER_INVOKE. simpl. rewrite Hawait.
  destruct (Codec.serializeArg error) as [arg | e] eqn:Hs.
  - rewrite (finally_serializable error arg) by done. simpl.
    by rewrite <- app_assoc.
  - rewrite (finally_unserializable error e) by done. simpl.
    by rewrite <- app_assoc.
Qed.





(** Exactly one exit message whenever the value is serializable, whatever
    was sent before. *)
Lemma bootstrap_one_exit_message invokeAsync error arg p :
  tryAwait invokeAsync = Some error ->
  Codec.serializeArg error = Return arg ->
  exitMessagesSent (calls (SUBPROCESS_RUNNER_INNER_INVOKE invokeAsync p).2)
  = exitMessagesSent (calls p) ++ [ISubprocessExitMessage arg].
Proof.
  intros Hawait Harg. rewrite (inner_invoke_run invokeAsync error) by done.
  rewrite Harg. simpl. by rewrite exitMessagesSent_app.
Qed.

(** While [invokeAsync] is pending the bootstrap has only installed its
    listener. *)
Lemma bootstrap_pending p :
  SUBPROCESS_RUNNER_INNER_INVOKE never_settles p
  = (NeverSettles,
     {| listeners := listeners p ++ [("message"%string, forwardToRouter)];
        calls := calls p ++ [on "message" forwardToRouter] |}).
Proof. reflexivity. Qed.

(** A worker whose [invokeAsync] throws [false] sends an exit message
    the parent takes for success. *)
Lemma thrown_false_resolves :
  exitMessagesSent
    (calls (SUBPROCESS_RUNNER_INNER_INVOKE (throws (Bool false)) freshProcess).2)
  = [Parent.exitMessageFalse] /\
  Parent.promise
    (Parent.after [] [Parent.message_event Parent.exitMessageFalse;
                      Parent.close_event])
  = Parent.Resolved.
Proof. split; reflexivity. Qed.

(** A worker whose [invokeAsync] rejects with a plain object sends no
    exit message; the parent reports that the subprocess exited before
    sending one. *)
Lemma thrown_object_reported_as_missing_exit :
  exitMessagesSent
    (calls (SUBPROCESS_RUNNER_INNER_INVOKE
              (rejected (Object (Converts "[object Object]"))) freshProcess).2)
  = [] /\
  Parent.promise (Parent.after [] [Parent.close_event])
  = Parent.Rejected Parent.exitedBeforeExitMessage.
Proof. split; reflexivity. Qed.

(** *** Beyond the claims *)

Lemma emitMessage_no_listeners managers message log :
  emitMessage managers [] message log = (Return tt, log).
Proof. reflexivity. Qed.

Lemma inner_invoke_listeners invokeAsync error p :
  tryAwait invokeAsync = Some error ->
  listeners (SUBPROCESS_RUNNER_INNER_INVOKE invokeAsync p).2 = [].
Proof.
  intros Hawait. rewrite (inner_invoke_run invokeAsync error) by done.
  by destruct (Codec.serializeArg error).
Qed.

(** X8. While [invokeAsync] is pending, a message from the parent is
    handed to [_receiveMessageFromParentProcess], once.  After the
    bootstrap has ended, however [invokeAsync] ended and whether or not
    the exit message could be sent, a message from the parent reaches no
    communication manager: no listener is left, not even one that was
    installed on [process] before the bootstrap ran. *)
Theorem inbound_messages_until_exit
    (managers : list SubprocessCommunicationManagerBase)
    (invokeAsync : Completion) (error : Value) (p : Process)
    (message : ISubprocessMessageBase) (log : Calls) :
  tryAwait invokeAsync = Some error ->
  emitMessage managers
    (listeners (SUBPROCESS_RUNNER_INNER_INVOKE never_settles freshProcess).2)
    message log
  = _receiveMessageFromParentProcess managers message log /\
  emitMessage managers
    (listeners (SUBPROCESS_RUNNER_INNER_INVOKE invokeAsync p).2) message log
  = (Return tt, log).
Proof.
  intros Hawait. split.
  - simpl. unfold Eff.bind.
    destruct (_receiveMessageFromParentProcess managers message log)
      as [[[] | e] log']; reflexivity.
  - by rewrite (inner_invoke_listeners invokeAsync error).
Qed.

Lemma inbound_messages_until_exit_witness :
  emitMessage [terminalProviderManager]
    (listeners (SUBPROCESS_RUNNER_INNER_INVOKE never_settles freshProcess).2)
    strayMessage []
  = _receiveMessageFromParentProcess [terminalProviderManager] strayMessage [] /\
  emitMessage [terminalProviderManager]
    (listeners
       (SUBPROCESS_RUNNER_INNER_INVOKE (throws failure)
          {| listeners := [("message"%string, installedElsewhere 1)];
             calls := [] |}).2)
    strayMessage []
  = (Return tt, []).
Proof.
  exact (inbound_messages_until_exit [terminalProviderManager]
           (throws failure) failure
           {| listeners := [("message"%string, installedElsewhere 1)];
              calls := [] |}
           strayMessage [] eq_refl).
Defined.

End BootstrapProperties.

(** ** Worker and parent together *)

Module ProtocolProperties.
Import Js Router Protocol.

(** X9. A worker that runs the bootstrap and ends settles the parent's
    promise as follows, whatever managers are registered; the exit
    message reaches the parent through the JSON channel.  If
    [invokeAsync] is fulfilled the promise resolves.  If it throws an
    Error the promise rejects with an Error that has the same message
    and stack.  If it throws a value [serializeArg] does not support, or
    never settles before the worker ends, the promise rejects with the
    "exited before sending exit message" error.  If it throws undefined,
    null, false, the empty string, a zero, NaN or an infinity the promise
    resolves; if it throws true, a string that is not empty or a finite
    number that is not zero the promise rejects with that value.  A
    rejected promise of [invokeAsync] counts as a throw. *)
Theorem worker_outcome_reaches_parent
    (managers : list SubprocessCommunicationManagerBase) :
  launchOutcome managers Bootstrap.fulfilled = Some Parent.Resolved /\
  (forall e,
      launchOutcome managers (Bootstrap.throws (ErrorInstance e))
      = Some (Parent.Rejected
                (Raised (ErrorInstance {| name := "Error"; message := message e;
                                          stack := stack e |})))) /\
  (forall v,
      Codec.isSupported v = false ->
      launchOutcome managers (Bootstrap.throws v)
      = Some (Parent.Rejected Parent.exitedBeforeExitMessage)) /\
  launchOutcome managers Bootstrap.never_settles
  = Some (Parent.Rejected Parent.exitedBeforeExitMessage) /\
  launchOutcome managers (Bootstrap.throws undefined) = Some Parent.Resolved /\
  launchOutcome managers (Bootstrap.throws null) = Some Parent.Resolved /\
  (forall b,
      launchOutcome managers (Bootstrap.throws (Bool b))
      = Some (if b then Parent.Rejected (Raised (Bool true))
              else Parent.Resolved)) /\
  (forall s,
      launchOutcome managers (Bootstrap.throws (Str s))
      = Some (if String.eqb s "" then Parent.Resolved
              else Parent.Rejected (Raised (Str s)))) /\
  (forall n,
      launchOutcome managers (Bootstrap.throws (Num n))
      = Some (match n with
              | Finite _ _ _ => Parent.Rejected (Raised (Num n))
              | NaN | Zero _ | Infinity _ => Parent.Resolved
              end)) /\
  (forall v,
      launchOutcome managers (Bootstrap.rejected v)
      = launchOutcome managers (Bootstrap.throws v)).
Proof.
  split; [reflexivity |]. split; [by intros e |].
  split.
  { intros v Hv.
    destruct v as [| | s | n | b | e | c | f | d | z]; try discriminate Hv;
      try reflexivity.
    destruct c; reflexivity. }
  split; [reflexivity |]. split; [reflexivity |]. split; [reflexivity |].
  split; [by intros [] |].
  split; [by intros [| c s] |].
  split; [by intros [| [] | [] | ? ? ?] |].
  reflexivity.
Qed.

End ProtocolProperties.

(** ** Node arguments for the subprocess *)

Module NodeArgsProperties.
Import NodeArgs.

(** *** The first part of a split *)

Lemma head_split separator s :
  head (split separator s) = Some (before separator s).
Proof.
  induction s as [| c rest IH]; [done |]. simpl.
  destruct (Ascii.eqb c separator); [done |].
  destruct (split separator rest) as [| part parts]; [done |].
  simpl in *. by injection IH as ->.
Qed.

Lemma before_flag separator flag :
  before separator flag = flag ->
  forall arg,
    before separator arg = flag <->
    arg = flag \/ String.prefix (flag +:+ String separator "") arg = true.
Proof.
  intros Hflag arg. split.
  - revert flag Hflag. induction arg as [| c rest IH]; intros flag Hflag H.
    + left. done.
    + simpl in H. destruct (Ascii.eqb c separator) eqn:Hc.
      * right. subst flag. apply Ascii.eqb_eq in Hc as ->. simpl.
        destruct (ascii_dec separator separator); [| done].
        by destruct rest.
      * subst flag. simpl in Hflag. rewrite Hc in Hflag.
        injection Hflag as Hflag.
        destruct (IH (before separator rest) Hflag eq_refl) as [Heq | Hpre].
        -- left. by rewrite <- Heq at 1.
        -- right. simpl. by destruct (ascii_dec c c).
  - intros [-> | Hpre]; [done |].
    revert arg Hpre Hflag. induction flag as [| a flag' IH]; intros arg Hpre Hflag.
    + destruct arg as [| c rest]; [done |]. simpl in *.
      destruct (ascii_dec separator c) as [<- |]; [| done].
      by rewrite Ascii.eqb_refl.
    + destruct arg as [| c rest]; [done |]. simpl in *.
      destruct (ascii_dec a c) as [<- |]; [| done].
      destruct (Ascii.eqb a separator); [done |].
      injection Hflag as Hflag. f_equal. by apply IH.
Qed.

Lemma first_part_is_flag flag arg :
  before "=" flag = flag ->
  (head (split "=" arg) = Some flag <-> isFlag flag arg = true).
Proof.
  intros Hflag. rewrite head_split. unfold isFlag.
  rewrite orb_true_iff, String.eqb_eq.
  rewrite <- (before_flag "=" flag Hflag arg).
  split; [by intros [= ->] | by intros ->].
Qed.

(** *** One argument *)

Lemma rewritten_forwarded port arg : rewritten port arg = forwarded port arg.
Proof.
  unfold rewritten, forwarded.
  destruct (isFlag "--inspect" arg) eqn:H1.
  - apply (first_part_is_flag "--inspect" arg eq_refl) in H1. by rewrite H1.
  - destruct (isFlag "--inspect-brk" arg) eqn:H2.
    + apply (first_part_is_flag "--inspect-brk" arg eq_refl) in H2. by rewrite H2.
    + rewrite head_split in *.
      destruct (String.eqb (before "=" arg) "--inspect") eqn:E1.
      * apply String.eqb_eq in E1.
        assert (isFlag "--inspect" arg = true) as Hc; [| congruence].
        apply (first_part_is_flag "--inspect" arg eq_refl).
        by rewrite head_split, E1.
      * destruct (String.eqb (before "=" arg) "--inspect-brk") eqn:E2; [| done].
        apply String.eqb_eq in E2.
        assert (isFlag "--inspect-brk" arg = true) as Hc; [| congruence].
        apply (first_part_is_flag "--inspect-brk" arg eq_refl).
        by rewrite head_split, E2.
Qed.

(** *** The loop over the cloned array *)

Lemma loopBody_run nodeArgs inspectPort will r done arg rest :
  arrays r !! nodeArgs = Some (done ++ arg :: rest) ->
  loopBody nodeArgs inspectPort (will, r) (length done)
  = (will || inspects arg,
     set_arrays
       (<[nodeArgs := done ++ rewritten inspectPort arg :: rest]> (arrays r)) r).
Proof.
  intros Hheap. unfold loopBody, elements, inspects, rewritten.
  rewrite Hheap. simpl. rewrite list_lookup_middle by done.
  destruct (head (split "=" arg)) as [firstNodeArgPart |].
  - destruct (String.eqb firstNodeArgPart "--inspect"
              || String.eqb firstNodeArgPart "--inspect-brk").
    + rewrite orb_true_r. unfold assign, elements. rewrite Hheap. simpl.
      replace (length done) with (length done + 0) at 1 by lia.
      by rewrite insert_app_r.
    + rewrite orb_false_r. rewrite insert_id by done. by destruct r.
  - rewrite orb_false_r. rewrite insert_id by done. by destruct r.
Qed.

Lemma loop_run nodeArgs inspectPort rest :
  forall done will r,
    arrays r !! nodeArgs = Some (done ++ rest) ->
    foldl (loopBody nodeArgs inspectPort) (will, r)
          (seq (length done) (length rest))
    = (will || existsb inspects rest,
       set_arrays
         (<[nodeArgs := done ++ (rewritten inspectPort <$> rest)]> (arrays r)) r).
Proof.
  induction rest as [| arg rest IH]; intros done will r Hheap.
  - simpl. rewrite orb_false_r. rewrite insert_id by done. by destruct r.
  - cbn [length seq foldl existsb fmap list_fmap].
    rewrite (loopBody_run _ _ _ _ done arg rest) by done.
    replace (S (length done)) with (length (done ++ [rewritten inspectPort arg]))
      by (rewrite length_app; simpl; lia).
    rewrite IH.
    + simpl. rewrite insert_insert_eq. rewrite <- app_assoc. simpl.
      by rewrite orb_assoc.
    + simpl. rewrite lookup_insert_eq. by rewrite <- app_assoc.
Qed.

(** The whole function in one equation: the clone is a new array, the
    caller's heap is extended by it and changed nowhere else. *)
Lemma processNodeArgs_run nodeArgs r :
  _processNodeArgsForSubprocess nodeArgs r
  = (fresh (dom (arrays r)),
     {| arrays :=
          <[fresh (dom (arrays r)) :=
              rewritten (_subprocessInspectorPort r) <$> elements r nodeArgs]>
            (arrays r);
        _subprocessInspectorPort := postIncrement (_subprocessInspectorPort r);
        terminal :=
          terminal r ++
          (if existsb inspects (elements r nodeArgs)
           then ["Subprocess with inspector bound to port "
                 +:+ Js.decimal (_subprocessInspectorPort r)]
           else []) |}).
Proof.
  unfold _processNodeArgsForSubprocess, spread. simpl.
  set (clone := fresh (dom (arrays r))).
  set (args := elements r nodeArgs).
  unfold elements at 1. simpl. rewrite lookup_insert_eq. simpl.
  pose proof (loop_run clone (_subprocessInspectorPort r) args [] false
    {| arrays := <[clone := args]> (arrays r);
       _subprocessInspectorPort := postIncrement (_subprocessInspectorPort r);
       terminal := terminal r |}) as Hloop.
  simpl in Hloop. rewrite Hloop by apply lookup_insert_eq.
  rewrite insert_insert_eq.
  destruct (existsb inspects args); simpl; [done |].
  by rewrite app_nil_r.
Qed.

Lemma processNodeArgs_frame nodeArgs r location :
  is_Some (arrays r !! location) ->
  arrays (_processNodeArgsForSubprocess nodeArgs r).2 !! location
  = arrays r !! location.
Proof.
  intros Hsome. rewrite processNodeArgs_run. simpl.
  apply lookup_insert_ne. intros Heq.
  apply (is_fresh (dom (arrays r))). rewrite Heq. by apply elem_of_dom.
Qed.

Lemma launches_frame count execArgv :
  forall r location,
    is_Some (arrays r !! location) ->
    arrays (launches count execArgv r).2 !! location = arrays r !! location.
Proof.
  induction count as [| count IH]; intros r location Hsome; [done |].
  simpl. destruct (_processNodeArgsForSubprocess execArgv r) as [child r1] eqn:H1.
  destruct (launches count execArgv r1) as [children r2] eqn:H2. simpl.
  assert (arrays r1 !! location = arrays r !! location) as Hr1.
  { replace r1 with (_processNodeArgsForSubprocess execArgv r).2 by by rewrite H1.
    by apply processNodeArgs_frame. }
  replace r2 with (launches count execArgv r1).2 by by rewrite H2.
  rewrite IH; [done |]. by rewrite Hr1.
Qed.

Lemma postIncrement_exact x : (x < 2 ^ 53)%Z -> postIncrement x = (x + 1)%Z.
Proof. intros H. unfold postIncrement. by rewrite (proj2 (Z.ltb_lt _ _) H). Qed.

Lemma launches_run count execArgv args :
  forall r,
    arrays r !! execArgv = Some args ->
    (_subprocessInspectorPort r + Z.of_nat count <= 2 ^ 53)%Z ->
    _subprocessInspectorPort (launches count execArgv r).2
    = (_subprocessInspectorPort r + Z.of_nat count)%Z /\
    length (launches count execArgv r).1 = count /\
    forall i child,
      (launches count execArgv r).1 !! i = Some child ->
      arrays r !! child = None /\
      arrays (launches count execArgv r).2 !! child
      = Some (forwarded (_subprocessInspectorPort r + Z.of_nat i) <$> args).
Proof.
  induction count as [| count IH]; intros r Hargs Hbound.
  - simpl. split; [lia |]. split; [done |]. intros i child H. done.
  - simpl. destruct (_processNodeArgsForSubprocess execArgv r) as [child0 r1] eqn:H1.
    destruct (launches count execArgv r1) as [children r2] eqn:H2. simpl.
    pose proof (processNodeArgs_run execArgv r) as Hrun. rewrite H1 in Hrun.
    injection Hrun as Hchild0 Hr1.
    assert (arrays r1 !! execArgv = Some args) as Hargs1.
    { replace r1 with (_processNodeArgsForSubprocess execArgv r).2 by by rewrite H1.
      rewrite processNodeArgs_frame; by rewrite ?Hargs. }
    assert (_subprocessInspectorPort r1 = _subprocessInspectorPort r + 1)%Z as Hport1.
    { rewrite Hr1. simpl. apply postIncrement_exact. lia. }
    destruct (IH r1 Hargs1) as (Hport2 & Hlen & Hchildren); [lia |].
    rewrite H2 in Hport2, Hlen, Hchildren. simpl in *.
    split; [lia |]. split; [by rewrite Hlen |].
    assert (arrays r !! child0 = None) as Hfresh0.
    { rewrite Hchild0. apply not_elem_of_dom, is_fresh. }
    assert (arrays r1 !! child0
            = Some (forwarded (_subprocessInspectorPort r) <$> args)) as Hclone.
    { rewrite Hr1, Hchild0. simpl. rewrite lookup_insert_eq.
      unfold elements. rewrite Hargs. simpl. f_equal.
      apply list_fmap_ext. intros _ arg _. apply rewritten_forwarded. }
    intros [| i] child Hi; simpl in Hi.
    + injection Hi as <-. split; [done |].
      replace r2 with (launches count execArgv r1).2 by by rewrite H2.
      rewrite launches_frame by (by rewrite Hclone).
      rewrite Hclone. by rewrite Z.add_0_r.
    + destruct (Hchildren i child Hi) as [Hnone Hsome]. split.
      * destruct (arrays r !! child) eqn:Hr; [| done].
        replace r1 with (_processNodeArgsForSubprocess execArgv r).2 in Hnone
          by by rewrite H1.
        rewrite processNodeArgs_frame in Hnone by (by rewrite Hr). congruence.
      * rewrite Hsome. do 3 f_equal. lia.
Qed.

(** *** The claims *)

(** C8. The static counter starts at 9230, above the default port 9229.
    While the counter is in the range where a Number counts exactly,
    [count] successive launches allocate the ports [c, c + 1, ...,
    c + count - 1], [c] the counter before the first of them, and leave
    the counter at [c + count]: every launch gets a port of its own,
    larger than those before.  The [execArgv] of the [i]-th child is the
    parent's, where every [--inspect] or [--inspect-brk] flag, with or
    without [=...] after it, is replaced by that flag with [=c + i] and
    every other argument is kept as it is. *)
Theorem inspector_port_allocated (r : Realm) (execArgv : nat)
    (args : list string) (count : nat) :
  arrays r !! execArgv = Some args ->
  (_subprocessInspectorPort r + Z.of_nat count <= 2 ^ 53)%Z ->
  (forall heap, _subprocessInspectorPort (initialRealm heap) = 9230%Z) /\
  _subprocessInspectorPort (launches count execArgv r).2
  = (_subprocessInspectorPort r + Z.of_nat count)%Z /\
  length (launches count execArgv r).1 = count /\
  forall i child,
    (launches count execArgv r).1 !! i = Some child ->
    arrays (launches count execArgv r).2 !! child
    = Some (forwarded (_subprocessInspectorPort r + Z.of_nat i) <$> args).
Proof.
  intros Hargs Hbound. split; [done |].
  destruct (launches_run count execArgv args r Hargs Hbound)
    as (Hport & Hlen & Hchildren).
  split; [done |]. split; [done |].
  intros i child Hi. by destruct (Hchildren i child Hi).
Qed.

Lemma inspector_port_allocated_witness :
  (forall heap, _subprocessInspectorPort (initialRealm heap) = 9230%Z) /\
  _subprocessInspectorPort (launches 3 7 parentRealm).2 = 9233%Z /\
  length (launches 3 7 parentRealm).1 = 3 /\
  forall i child,
    (launches 3 7 parentRealm).1 !! i = Some child ->
    arrays (launches 3 7 parentRealm).2 !! child
    = Some (forwarded (9230 + Z.of_nat i) <$> parentExecArgv).
Proof.
  apply (inspector_port_allocated parentRealm 7 parentExecArgv 3).
  - reflexivity.
  - by vm_compute.
Defined.

Example forwarded_args :
  forwarded 9231 <$> parentExecArgv
  = ["--inspect-brk=9231"; "--max-old-space-size=4096"; "--inspect=9231"]%string.
Proof. reflexivity. Qed.

(** An argument that only begins like a flag is not one. *)
Example forwarded_inspect_port :
  forwarded 9230 "--inspect-port=9229" = "--inspect-port=9229"%string.
Proof. reflexivity. Qed.

(** C9. The function does not change the array it is given: the array
    it returns is a new one, allocated before any rewriting, and every
    array the caller could reach, [nodeArgs] among them, holds after the
    call what it held before. *)
Theorem caller_array_unchanged (r : Realm) (nodeArgs : nat)
    (args : list string) :
  arrays r !! nodeArgs = Some args ->
  arrays (_processNodeArgsForSubprocess nodeArgs r).2 !! nodeArgs = Some args /\
  (_processNodeArgsForSubprocess nodeArgs r).1 <> nodeArgs /\
  arrays r !! (_processNodeArgsForSubprocess nodeArgs r).1 = None /\
  (forall location,
      is_Some (arrays r !! location) ->
      arrays (_processNodeArgsForSubprocess nodeArgs r).2 !! location
      = arrays r !! location).
Proof.
  intros Hargs.
  assert (arrays r !! (_processNodeArgsForSubprocess nodeArgs r).1 = None)
    as Hfresh.
  { rewrite processNodeArgs_run. simpl. apply not_elem_of_dom, is_fresh. }
  split; [| split; [| split; [done |]]].
  - rewrite processNodeArgs_frame; by rewrite ?Hargs.
  - intros Heq. rewrite Heq in Hfresh. congruence.
  - intros location Hsome. by apply processNodeArgs_frame.
Qed.

Lemma caller_array_unchanged_witness :
  arrays (_processNodeArgsForSubprocess 7 parentRealm).2 !! 7
  = Some parentExecArgv /\
  (_processNodeArgsForSubprocess 7 parentRealm).1 <> 7 /\
  arrays parentRealm !! (_processNodeArgsForSubprocess 7 parentRealm).1 = None /\
  (forall location,
      is_Some (arrays parentRealm !! location) ->
      arrays (_processNodeArgsForSubprocess 7 parentRealm).2 !! location
      = arrays parentRealm !! location).
Proof.
  apply (caller_array_unchanged parentRealm 7 parentExecArgv).
  reflexivity.
Defined.

(** The returned array holds the rewritten arguments; the caller's still
    holds the flags as the parent was given them. *)
Example clone_rewritten :
  let result := _processNodeArgsForSubprocess 7 parentRealm in
  arrays result.2 !! result.1
  = Some ["--inspect-brk=9230"; "--max-old-space-size=4096"; "--inspect=9230"]%string
  /\ arrays result.2 !! 7 = Some parentExecArgv
  /\ terminal result.2 = ["Subprocess with inspector bound to port 9230"]%string.
Proof. vm_compute. done. Qed.

(** *** Beyond the claims *)

Lemma inspects_isInspectorFlag arg : inspects arg = isInspectorFlag arg.
Proof.
  unfold inspects, isInspectorFlag. rewrite head_split.
  destruct (isFlag "--inspect" arg) eqn:H1.
  - apply (first_part_is_flag "--inspect" arg eq_refl) in H1.
    rewrite head_split in H1. by injection H1 as ->.
  - destruct (isFlag "--inspect-brk" arg) eqn:H2.
    + apply (first_part_is_flag "--inspect-brk" arg eq_refl) in H2.
      rewrite head_split in H2. by injection H2 as ->.
    + destruct (String.eqb (before "=" arg) "--inspect") eqn:E1.
      * apply String.eqb_eq in E1.
        assert (isFlag "--inspect" arg = true) as Hc; [| congruence].
        apply (first_part_is_flag "--inspect" arg eq_refl).
        by rewrite head_split, E1.
      * destruct (String.eqb (before "=" arg) "--inspect-brk") eqn:E2; [| done].
        apply String.eqb_eq in E2.
        assert (isFlag "--inspect-brk" arg = true) as Hc; [| congruence].
        apply (first_part_is_flag "--inspect-brk" arg eq_refl).
        by rewrite head_split, E2.
Qed.

Lemma forwarded_not_flag port arg :
  isInspectorFlag arg = false -> forwarded port arg = arg.
Proof.
  unfold isInspectorFlag, forwarded. intros [-> ->]%orb_false_elim. done.
Qed.

Lemma prefix_append (s t : string) : String.prefix s (s +:+ t) = true.
Proof.
  induction s as [| a s IH].
  - by destruct t.
  - change (String a s +:+ t) with (String a (s +:+ t)). simpl.
    by destruct (ascii_dec a a).
Qed.

Lemma forwarded_inspect port suffix :
  forwarded port ("--inspect=" +:+ suffix) = "--inspect=" +:+ Js.decimal port.
Proof.
  unfold forwarded, isFlag.
  change ("--inspect=" +:+ suffix) with (("--inspect" +:+ "=") +:+ suffix).
  by rewrite (prefix_append ("--inspect" +:+ "=") suffix), orb_true_r.
Qed.

Lemma forwarded_inspect_brk port suffix :
  forwarded port ("--inspect-brk=" +:+ suffix)
  = "--inspect-brk=" +:+ Js.decimal port.
Proof.
  unfold forwarded.
  replace (isFlag "--inspect" ("--inspect-brk=" +:+ suffix)) with false
    by reflexivity.
  unfold isFlag.
  change ("--inspect-brk=" +:+ suffix)
    with (("--inspect-brk" +:+ "=") +:+ suffix).
  by rewrite (prefix_append ("--inspect-brk" +:+ "=") suffix), orb_true_r.
Qed.

Lemma forwarded_forwarded first second arg :
  forwarded second (forwarded first arg) = forwarded second arg.
Proof.
  unfold forwarded at 2 3.
  destruct (isFlag "--inspect" arg) eqn:H1; [apply forwarded_inspect |].
  destruct (isFlag "--inspect-brk" arg) eqn:H2; [apply forwarded_inspect_brk |].
  unfold forwarded. by rewrite H1, H2.
Qed.

Lemma fmap_forwarded_unflagged port args :
  existsb isInspectorFlag args = false -> forwarded port <$> args = args.
Proof.
  induction args as [| arg rest IH]; [done |]. simpl.
  intros [Harg Hrest]%orb_false_elim.
  rewrite forwarded_not_flag by done. f_equal. by apply IH.
Qed.

Lemma processNodeArgs_result r nodeArgs args :
  arrays r !! nodeArgs = Some args ->
  arrays (_processNodeArgsForSubprocess nodeArgs r).2
    !! (_processNodeArgsForSubprocess nodeArgs r).1
  = Some (forwarded (_subprocessInspectorPort r) <$> args).
Proof.
  intros Hargs. rewrite processNodeArgs_run. simpl.
  rewrite lookup_insert_eq. unfold elements. rewrite Hargs. simpl. f_equal.
  apply list_fmap_ext. intros _ arg _. apply rewritten_forwarded.
Qed.

(** X10. Launching from the arguments of a child gives what launching
    from the parent's arguments gives: when the array a call returned is
    passed to a second call, the array the second call returns holds the
    original arguments with the inspector flags carrying the port of the
    second call, and nothing of the port of the first. *)
Theorem relaunch_overwrites_port (r : Realm) (nodeArgs : nat)
    (args : list string) :
  arrays r !! nodeArgs = Some args ->
  arrays (_processNodeArgsForSubprocess
            (_processNodeArgsForSubprocess nodeArgs r).1
            (_processNodeArgsForSubprocess nodeArgs r).2).2
    !! (_processNodeArgsForSubprocess
          (_processNodeArgsForSubprocess nodeArgs r).1
          (_processNodeArgsForSubprocess nodeArgs r).2).1
  = Some (forwarded
            (_subprocessInspectorPort
               (_processNodeArgsForSubprocess nodeArgs r).2) <$> args).
Proof.
  intros Hargs.
  rewrite (processNodeArgs_result _ _ _ (processNodeArgs_result _ _ _ Hargs)).
  f_equal. rewrite <- list_fmap_compose. apply list_fmap_ext.
  intros _ arg _. simpl. apply forwarded_forwarded.
Qed.

Lemma relaunch_overwrites_port_witness :
  arrays (_processNodeArgsForSubprocess
            (_processNodeArgsForSubprocess 7 parentRealm).1
            (_processNodeArgsForSubprocess 7 parentRealm).2).2
    !! (_processNodeArgsForSubprocess
          (_processNodeArgsForSubprocess 7 parentRealm).1
          (_processNodeArgsForSubprocess 7 parentRealm).2).1
  = Some (forwarded
            (_subprocessInspectorPort
               (_processNodeArgsForSubprocess 7 parentRealm).2)
          <$> parentExecArgv).
Proof.
  apply (relaunch_overwrites_port parentRealm 7 parentExecArgv).
  reflexivity.
Defined.

(** X11. A call writes to the terminal at most once: the line
    "Subprocess with inspector bound to port <port>" when at least one
    argument is an inspector flag, however many there are, and nothing
    when there is none.  In that case the array returned holds the
    arguments unchanged.  The port counter advances in both cases. *)
Theorem inspector_line_written_once (r : Realm) (nodeArgs : nat)
    (args : list string) :
  arrays r !! nodeArgs = Some args ->
  terminal (_processNodeArgsForSubprocess nodeArgs r).2
  = terminal r ++
    (if existsb isInspectorFlag args
     then ["Subprocess with inspector bound to port "
           +:+ Js.decimal (_subprocessInspectorPort r)]
     else []) /\
  (existsb isInspectorFlag args = false ->
   arrays (_processNodeArgsForSubprocess nodeArgs r).2
     !! (_processNodeArgsForSubprocess nodeArgs r).1 = Some args) /\
  _subprocessInspectorPort (_processNodeArgsForSubprocess nodeArgs r).2
  = postIncrement (_subprocessInspectorPort r).
Proof.
  intros Hargs.
  assert (existsb inspects args = existsb isInspectorFlag args) as Hflags.
  { clear Hargs. induction args as [| arg rest IH]; [done |]. simpl.
    by rewrite inspects_isInspectorFlag, IH. }
  split; [| split].
  - rewrite processNodeArgs_run.
    replace (elements r nodeArgs) with args
      by (unfold elements; by rewrite Hargs).
    simpl. by rewrite Hflags.
  - intros Hnone. rewrite (processNodeArgs_result r nodeArgs args Hargs).
    by rewrite fmap_forwarded_unflagged.
  - by rewrite processNodeArgs_run.
Qed.

Lemma inspector_line_written_once_witness :
  terminal (_processNodeArgsForSubprocess 7 parentRealm).2
  = terminal parentRealm ++
    (if existsb isInspectorFlag parentExecArgv
     then ["Subprocess with inspector bound to port "
           +:+ Js.decimal (_subprocessInspectorPort parentRealm)]
     else []) /\
  (existsb isInspectorFlag parentExecArgv = false ->
   arrays (_processNodeArgsForSubprocess 7 parentRealm).2
     !! (_processNodeArgsForSubprocess 7 parentRealm).1 = Some parentExecArgv) /\
  _subprocessInspectorPort (_processNodeArgsForSubprocess 7 parentRealm).2
  = postIncrement (_subprocessInspectorPort parentRealm).
Proof.
  apply (inspector_line_written_once parentRealm 7 parentExecArgv).
  reflexivity.
Defined.

Lemma launches_children_new count execArgv :
  forall r child,
    child ∈ (launches count execArgv r).1 ->
    arrays r !! child = None /\
    is_Some (arrays (launches count execArgv r).2 !! child).
Proof.
  induction count as [| count IH]; intros r child Hin.
  - simpl in Hin. inversion Hin.
  - simpl in *.
    destruct (_processNodeArgsForSubprocess execArgv r) as [child0 r1] eqn:H1.
    destruct (launches count execArgv r1) as [children r2] eqn:H2.
    simpl in *.
    pose proof (processNodeArgs_run execArgv r) as Hrun. rewrite H1 in Hrun.
    injection Hrun as Hchild0 Hr1.
    assert (forall location, is_Some (arrays r !! location) ->
                             is_Some (arrays r1 !! location)) as Hgrow.
    { intros location Hsome.
      replace r1 with (_processNodeArgsForSubprocess execArgv r).2
        by by rewrite H1.
      by rewrite processNodeArgs_frame. }
    apply elem_of_cons in Hin as [-> | Hin].
    + split.
      * rewrite Hchild0. apply not_elem_of_dom, is_fresh.
      * replace r2 with (launches count execArgv r1).2 by by rewrite H2.
        assert (is_Some (arrays r1 !! child0)) as Hsome.
        { rewrite Hr1, Hchild0. simpl. rewrite lookup_insert_eq. by eexists. }
        by rewrite launches_frame.
    + specialize (IH r1 child). rewrite H2 in IH. simpl in IH.
      destruct (IH Hin) as [Hnone Hsome]. split; [| done].
      destruct (arrays r !! child) eqn:Hr; [| done].
      destruct (Hgrow child) as [x Hx]; [by rewrite Hr |]. congruence.
Qed.

(** X12. No two launches share an array: the arrays [count] successive
    calls return are pairwise different, and none of them is the array
    the calls were given. *)
Theorem children_arrays_distinct (count : nat) (execArgv : nat) (r : Realm) :
  is_Some (arrays r !! execArgv) ->
  NoDup (launches count execArgv r).1 /\
  execArgv ∉ (launches count execArgv r).1.
Proof.
  intros Hsome. split.
  - clear Hsome. revert r. induction count as [| count IH]; intros r.
    + simpl. constructor.
    + pose proof (launches_children_new (S count) execArgv r) as Hnew.
      simpl in *.
      destruct (_processNodeArgsForSubprocess execArgv r) as [child0 r1] eqn:H1.
      pose proof (launches_children_new count execArgv r1) as Hnew1.
      specialize (IH r1).
      destruct (launches count execArgv r1) as [children r2] eqn:H2.
      simpl in *. constructor; [| done].
      intros Hin. destruct (Hnew1 child0 Hin) as [Hnone _].
      pose proof (processNodeArgs_run execArgv r) as Hrun. rewrite H1 in Hrun.
      injection Hrun as Hchild0 Hr1.
      rewrite Hr1, Hchild0 in Hnone. simpl in Hnone.
      by rewrite lookup_insert_eq in Hnone.
  - intros Hin. destruct (launches_children_new _ _ _ _ Hin) as [Hnone _].
    rewrite Hnone in Hsome. by destruct Hsome.
Qed.

Lemma children_arrays_distinct_witness :
  NoDup (launches 3 7 parentRealm).1 /\ 7 ∉ (launches 3 7 parentRealm).1.
Proof.
  apply (children_arrays_distinct 3 7 parentRealm).
  exists parentExecArgv. reflexivity.
Defined.

End NodeArgsProperties.

(** ** The string buffer terminal provider *)

Module TerminalProviderProperties.
Import TerminalProvider.

Lemma append_cons (c : ascii) (s t : string) :
  String c s +:+ t = String c (s +:+ t).
Proof. reflexivity. Qed.

Lemma append_nil_r (s : string) : s +:+ "" = s.
Proof. induction s as [| c s IH]; [done | by rewrite append_cons, IH]. Qed.

Lemma append_assoc (s t u : string) : (s +:+ t) +:+ u = s +:+ (t +:+ u).
Proof. induction s as [| c s IH]; [done | by rewrite !append_cons, IH]. Qed.

Lemma toString_chunks_app (xs ys : list string) :
  foldr String.append EmptyString (xs ++ ys)
  = foldr String.append EmptyString xs +:+ foldr String.append EmptyString ys.
Proof.
  induction xs as [| x xs IH]; simpl; [done |].
  by rewrite IH, append_assoc.
Qed.

Lemma toString_append text builder :
  toString (append text builder) = toString builder +:+ text.
Proof.
  unfold toString, append. simpl. rewrite toString_chunks_app. simpl.
  by rewrite append_nil_r.
Qed.

Lemma replace_app c replacement (s t : string) :
  replace c replacement (s +:+ t)
  = replace c replacement s +:+ replace c replacement t.
Proof.
  induction s as [| x s IH]; simpl; [done |].
  destruct (Ascii.eqb x c); rewrite IH; [by rewrite append_assoc | done].
Qed.

Lemma normalizeOutput_app (s t : string) :
  _normalizeOutput (s +:+ t) = _normalizeOutput s +:+ _normalizeOutput t.
Proof. unfold _normalizeOutput. by rewrite !replace_app. Qed.

Lemma normalizeOutput_each_character (s : string) :
  _normalizeOutput s = eachCharacterNormalized s.
Proof.
  induction s as [| c rest IH]; [done |].
  change (String c rest) with (String c "" +:+ rest).
  rewrite normalizeOutput_app, IH. simpl. f_equal.
  unfold _normalizeOutput, normalizedCharacter. simpl.
  destruct (Ascii.eqb c escape) eqn:E1; [done |]. simpl.
  destruct (Ascii.eqb c lineFeed) eqn:E2; [done |]. simpl.
  by destruct (Ascii.eqb c carriageReturn) eqn:E3.
Qed.

(** C10. [write(data, severity)] appends [data] to the warning buffer
    when the severity is [warn], to the error buffer when it is [error],
    and to the standard buffer for every other severity; the two other
    buffers keep their contents.  Seen through [getOutput],
    [getWarningOutput] and [getErrorOutput]: the output of the buffer
    written to grows by the normalized [data], the two others do not
    change; and normalizing replaces every escape character by "[x]",
    every line feed by "[n]" and every carriage return by "[r]". *)
Theorem write_appends_to_one_buffer (data : string) (severity : Severity)
    (this : StringBufferTerminalProvider) :
  match severity with
  | warn =>
      getWarningOutput (write data severity this)
      = getWarningOutput this +:+ _normalizeOutput data /\
      getOutput (write data severity this) = getOutput this /\
      getErrorOutput (write data severity this) = getErrorOutput this
  | error =>
      getErrorOutput (write data severity this)
      = getErrorOutput this +:+ _normalizeOutput data /\
      getOutput (write data severity this) = getOutput this /\
      getWarningOutput (write data severity this) = getWarningOutput this
  | log | otherSeverity _ =>
      getOutput (write data severity this)
      = getOutput this +:+ _normalizeOutput data /\
      getWarningOutput (write data severity this) = getWarningOutput this /\
      getErrorOutput (write data severity this) = getErrorOutput this
  end /\
  _normalizeOutput data = eachCharacterNormalized data /\
  supportsColor (write data severity this) = supportsColor this.
Proof.
  split; [| split; [apply normalizeOutput_each_character | by destruct severity]].
  destruct severity; unfold getOutput, getWarningOutput, getErrorOutput; simpl;
    (split; [by rewrite toString_append, normalizeOutput_app | done]).
Qed.

Example write_warning_then_error :
  let provider := write "late" error
                    (write (String escape "[33mslow" +:+ String lineFeed "") warn
                       (constructor false)) in
  getWarningOutput provider = "[x][33mslow[n]"%string /\
  getErrorOutput provider = "late"%string /\
  getOutput provider = ""%string.
Proof. repeat split. Qed.

Example normalize_crlf :
  _normalizeOutput (String carriageReturn (String lineFeed "ok")) = "[r][n]ok"%string.
Proof. reflexivity. Qed.

(** *** Beyond the claims *)

Lemma write_outputs data severity this :
  getOutput (write data severity this)
  = getOutput this
    +:+ _normalizeOutput (if isStandard severity then data else "") /\
  getWarningOutput (write data severity this)
  = getWarningOutput this
    +:+ _normalizeOutput (if isWarn severity then data else "") /\
  getErrorOutput (write data severity this)
  = getErrorOutput this
    +:+ _normalizeOutput (if isError severity then data else "") /\
  supportsColor (write data severity this) = supportsColor this.
Proof.
  destruct severity; unfold getOutput, getWarningOutput, getErrorOutput; simpl;
    rewrite ?toString_append, ?normalizeOutput_app;
    change (_normalizeOutput "") with EmptyString;
    rewrite ?append_nil_r; done.
Qed.

(** X13. After any sequence of writes, each of the three outputs is what
    it was before followed by the normalized text of the writes of its
    own severity, in the order written: [warn] for the warning output,
    [error] for the error output, every other severity for the standard
    output.  Writes of different severities do not interleave in any
    output, and no write changes [supportsColor]. *)
Theorem outputs_after_writes (writes : list (string * Severity))
    (this : StringBufferTerminalProvider) :
  getOutput (writeAll writes this)
  = getOutput this +:+ _normalizeOutput (written isStandard writes) /\
  getWarningOutput (writeAll writes this)
  = getWarningOutput this +:+ _normalizeOutput (written isWarn writes) /\
  getErrorOutput (writeAll writes this)
  = getErrorOutput this +:+ _normalizeOutput (written isError writes) /\
  supportsColor (writeAll writes this) = supportsColor this.
Proof.
  revert this. induction writes as [| [data severity] rest IH]; intros this.
  - unfold writeAll. simpl. change (_normalizeOutput "") with EmptyString.
    by rewrite !append_nil_r.
  - change (writeAll ((data, severity) :: rest) this)
      with (writeAll rest (write data severity this)).
    destruct (IH (write data severity this)) as (-> & -> & -> & ->).
    destruct (write_outputs data severity this) as (-> & -> & -> & ->).
    cbn [written]. rewrite !append_assoc, <- !normalizeOutput_app.
    destruct severity; simpl; done.
Qed.

Lemma occurs_app c (s t : string) :
  occurs c (s +:+ t) = occurs c s || occurs c t.
Proof.
  induction s as [| x s IH]; [done |].
  rewrite append_cons. simpl. by rewrite IH, orb_assoc.
Qed.

Lemma replace_absent c replacement s :
  occurs c s = false -> replace c replacement s = s.
Proof.
  induction s as [| x s IH]; [done |]. simpl.
  intros [-> Hrest]%orb_false_elim. by rewrite IH.
Qed.

Lemma normalizedCharacter_clean c :
  occurs escape (normalizedCharacter c) = false /\
  occurs lineFeed (normalizedCharacter c) = false /\
  occurs carriageReturn (normalizedCharacter c) = false.
Proof.
  unfold normalizedCharacter.
  destruct (Ascii.eqb c escape) eqn:E1; [done |].
  destruct (Ascii.eqb c lineFeed) eqn:E2; [done |].
  destruct (Ascii.eqb c carriageReturn) eqn:E3; [done |].
  simpl. by rewrite E1, E2, E3.
Qed.

Lemma normalizeOutput_clean s :
  occurs escape (_normalizeOutput s) = false /\
  occurs lineFeed (_normalizeOutput s) = false /\
  occurs carriageReturn (_normalizeOutput s) = false.
Proof.
  rewrite normalizeOutput_each_character.
  induction s as [| c rest (I1 & I2 & I3)]; [done |]. simpl.
  destruct (normalizedCharacter_clean c) as (H1 & H2 & H3).
  by rewrite !occurs_app, H1, H2, H3, I1, I2, I3.
Qed.

(** X14. No output contains an escape character, a line feed or a
    carriage return, whatever was written; and normalizing a normalized
    text changes nothing. *)
Theorem outputs_have_no_control_characters (s : string) :
  occurs escape (_normalizeOutput s) = false /\
  occurs lineFeed (_normalizeOutput s) = false /\
  occurs carriageReturn (_normalizeOutput s) = false /\
  _normalizeOutput (_normalizeOutput s) = _normalizeOutput s.
Proof.
  destruct (normalizeOutput_clean s) as (H1 & H2 & H3).
  split; [done |]. split; [done |]. split; [done |].
  unfold _normalizeOutput at 1.
  by rewrite (replace_absent escape), (replace_absent lineFeed),
    (replace_absent carriageReturn).
Qed.

Lemma normalizeOutput_cons c s :
  _normalizeOutput (String c s) = normalizedCharacter c +:+ _normalizeOutput s.
Proof. by rewrite !normalizeOutput_each_character. Qed.

(** X15. The outputs do not tell a control character from the text that
    stands for it: an escape character and the three characters "[x]"
    give the same output wherever they stand in the text written, and so
    do a line feed and "[n]", and a carriage return and "[r]". *)
Theorem output_hides_control_characters (before after : string) :
  _normalizeOutput (before +:+ String escape after)
  = _normalizeOutput (before +:+ "[x]" +:+ after) /\
  _normalizeOutput (before +:+ String lineFeed after)
  = _normalizeOutput (before +:+ "[n]" +:+ after) /\
  _normalizeOutput (before +:+ String carriageReturn after)
  = _normalizeOutput (before +:+ "[r]" +:+ after).
Proof.
  rewrite !normalizeOutput_app, !normalizeOutput_cons. done.
Qed.

End TerminalProviderProperties.
